(** * ntfy-real-time-client: the notification normalizer and the dispatcher

    A shallow embedding of [src/ntfy_real_time_client/__init__.py]: the five
    module-level registries, the registration operations, the normalizer
    [get_notification_model] and the dispatch entry point
    [NTFYOpenClientRealTime.process_message] with its five paths.

    Python objects that the code shares and mutates (the registries, the
    caller's mapping, the dict built by the normalizer) live in an explicit
    [world]; user handlers are arbitrary transformers of that world which may
    also raise.  What the dispatcher does is observed as the list of
    invocations it makes: handler calls and [subprocess.Popen] requests.
    What [subprocess.Popen] does with a request, raising included, is the
    operating system's side and a parameter of the model, as the handlers
    are. *)

From Stdlib Require Import Ascii.
From stdpp Require Import base option list strings functions gmap.

(** ** Python values *)

(** The values an inbound event carries: JSON scalars and lists of strings.
    [VNone] is Python's [None], the absence marker of the normalizer. *)
Inductive pyval :=
  | VNone
  | VBool (b : bool)
  | VInt (z : Z)
  | VStr (s : string)
  | VList (l : list string).

#[global] Instance pyval_eq_dec : EqDecision pyval.
Proof. solve_decision. Defined.

(** A dict with string keys whose iteration order is never observed. *)
Abbreviation pydict := (gmap string pyval).

(** The exceptions the modelled code can meet.  [ValueError], [TypeError]
    and [OSError] are those of [subprocess.Popen]; [Exception] stands for
    whatever a user handler raises. *)
Inductive exn :=
  | IndexError
  | AttributeError
  | KeyError (key : string)
  | RuntimeError
  | ValueError
  | TypeError
  | OSError
  | Exception (what : string).

#[global] Instance exn_eq_dec : EqDecision exn.
Proof. solve_decision. Defined.

(** ** [str.split()] *)

Module Str.

(** [str.isspace] on one character.  A string is read as a sequence of code
    points below 256; among those Python counts as whitespace TAB, LF, VT,
    FF, CR, the separators 0x1c-0x1f, SPACE, NEL (0x85) and NBSP (0xa0). *)
Definition isspace (c : ascii) : bool :=
  let n := nat_of_ascii c in
  ((9 <=? n) && (n <=? 13)) || ((28 <=? n) && (n <=? 32))
  || (n =? 133) || (n =? 160).

(** The token read so far, kept in reverse, becomes a word when it ends. *)
Definition flush (word : string) : list string :=
  match word with
  | EmptyString => []
  | _ => [String.rev word]
  end.

Fixpoint split_go (word : string) (s : string) : list string :=
  match s with
  | EmptyString => flush word
  | String c s' =>
      if isspace c then flush word ++ split_go EmptyString s'
      else split_go (String c word) s'
  end.

(** [s.split()]: the maximal runs of non-whitespace characters of [s]. *)
Definition split (s : string) : list string := split_go EmptyString s.

(** Whether [s] is empty or all whitespace. *)
Fixpoint blank (s : string) : bool :=
  match s with
  | EmptyString => true
  | String c s' => isspace c && blank s'
  end.

(** Whether some character of [s] is whitespace. *)
Fixpoint has_space (s : string) : bool :=
  match s with
  | EmptyString => false
  | String c s' => isspace c || has_space s'
  end.

End Str.

(** ** The normalizer *)

(** The dict literal of [get_notification_model]. *)
Definition notification_dict : pydict :=
  list_to_map
    [ ("id", VNone); ("id_str", VNone); ("umid", VNone); ("umid_str", VNone);
      ("title", VNone); ("message", VNone); ("app", VNone); ("aid", VNone);
      ("aid_str", VNone); ("icon", VNone); ("date", VNone);
      ("queued_date", VNone); ("dispatched_date", VNone); ("priority", VNone);
      ("sound", VNone); ("url", VNone); ("url_title", VNone); ("acked", VNone);
      ("receipt", VNone); ("html", VNone) ]%string.

(** [d.update(other)]: the entries of [other] win. *)
Definition dict_update {V} (d other : gmap string V) : gmap string V := other ∪ d.

(** [get_notification_model]: the literal, updated with the keyword
    arguments the caller unpacked into the call. *)
Definition get_notification_model (kwargs : pydict) : pydict :=
  dict_update notification_dict kwargs.

(** The canonical field names, as the specification lists them. *)
Definition canonical_fields : list string :=
  [ "id"; "id_str"; "umid"; "umid_str"; "title"; "message"; "app"; "aid";
    "aid_str"; "icon"; "date"; "queued_date"; "dispatched_date"; "priority";
    "sound"; "url"; "url_title"; "acked"; "receipt"; "html" ]%string.

(** The specification's reading of the normalizer: the input overlaid on a
    record that binds every canonical field to the absence marker. *)
Definition overlay_on_absent (kwargs : pydict) (field : string) : option pyval :=
  match kwargs !! field with
  | Some v => Some v
  | None => if decide (field ∈ canonical_fields) then Some VNone else None
  end.

(** ** Functions, registries and the world *)

(** A function object: a [def] with its name and its identity, or the
    forwarding wrapper that the decorators build with [functools.wraps]. *)
Inductive pyfunc :=
  | Def (name : string) (code : nat)
  | Wraps (f : pyfunc).

#[global] Instance pyfunc_eq_dec : EqDecision pyfunc.
Proof. solve_decision. Defined.

Fixpoint __name__ (f : pyfunc) : string :=
  match f with
  | Def name _ => name
  | Wraps g => __name__ g
  end.

(** A dict that is iterated: [PARSERS_REGISTRY].  CPython keeps the entries
    of a dict in an array, in the order of their insertion; deleting an
    entry leaves a hole in the array, and the iterator of the dict walks the
    array.  The dict is given by that array: [Some (k, v)] is an entry,
    [None] a hole. *)
Module ODict.

Definition t (V : Type) := list (option (string * V)).

(** The entries, without the holes. *)
Definition entries {V} (d : t V) : list (string * V) := omap id d.

(** [list(d)]: the keys in insertion order. *)
Definition keys {V} (d : t V) : list string := (entries d).*1.

(** [len(d)] *)
Definition size {V} (d : t V) : nat := length (entries d).

Fixpoint get {V} (d : t V) (k : string) : option V :=
  match d with
  | [] => None
  | Some (k', v) :: d' => if decide (k' = k) then Some v else get d' k
  | None :: d' => get d' k
  end.

(** [d[k] = v]: in place when [k] is a key, at the end of the array
    otherwise.  (When the array has no room left CPython closes its holes
    before it adds the entry; the entries keep their order.  Where the holes
    are is seen by an iteration under way only, and what a handler does to
    the dict is given by the array that the handler leaves.) *)
Fixpoint set {V} (d : t V) (k : string) (v : V) : t V :=
  match d with
  | [] => [Some (k, v)]
  | Some (k', v') :: d' =>
      if decide (k' = k) then Some (k', v) :: d' else Some (k', v') :: set d' k v
  | None :: d' => None :: set d' k v
  end.

(** [del d[k]]: the entry becomes a hole. *)
Fixpoint delete {V} (d : t V) (k : string) : t V :=
  match d with
  | [] => []
  | Some (k', v) :: d' =>
      if decide (k' = k) then None :: d' else Some (k', v) :: delete d' k
  | None :: d' => None :: delete d' k
  end.

(** [d.update(other)], for [other] a dict display. *)
Definition update {V} (d : t V) (other : list (string * V)) : t V :=
  foldl (λ acc kv, set acc kv.1 kv.2) d other.

(** From the start of an array: the number of holes before the first entry
    and the key of that entry, if there is an entry. *)
Fixpoint scan {V} (l : t V) : option (nat * string) :=
  match l with
  | [] => None
  | Some (k, _) :: _ => Some (0, k)
  | None :: l' => (λ found, (S found.1, found.2)) <$> scan l'
  end.

(** The step of the iterator from position [i]: the position and the key of
    the first entry at or after [i]; nothing at the end of the array. *)
Definition next {V} (d : t V) (i : nat) : option (nat * string) :=
  (λ found, (i + found.1, found.2)) <$> scan (drop i d).

End ODict.

Record registries := Registries {
  COMMAND_FUNCTIONS_REGISTRY : gmap string pyfunc;
  COMMAND_PARSERS_REGISTRY : gmap string pyfunc;
  PARSERS_REGISTRY : ODict.t pyfunc;
  SHELL_COMMANDS_REGISTRY : gset string;
  SHELL_COMMAND_ALIASES_REGISTRY : gmap string pyval;
}.

(** The module as imported: every registry empty. *)
Definition empty_registries : registries :=
  Registries ∅ ∅ [] ∅ ∅.

Definition loc := nat.

(** The state a handler can reach: the module globals, the dict objects
    (by address) and whatever else there is ([user]): the application's own
    state and the operating system's. *)
Record world (U : Type) := World {
  globals : registries;
  heap : loc → pydict;
  next_loc : loc;
  user : U;
}.
Arguments World {U} _ _ _ _.
Arguments globals {U} _.
Arguments heap {U} _ _.
Arguments next_loc {U} _.
Arguments user {U} _.

(** What is handed to a handler: a string, or a dict object, given by its
    address together with its contents at the time of the call. *)
Inductive pyarg :=
  | AStr (s : string)
  | ADict (l : loc) (d : pydict).

(** The invocations the dispatcher makes. *)
Inductive event :=
  | Call (f : pyfunc) (args : list pyarg) (kwargs : list (string * pyarg))
  | Popen (args : pyval) (shell : bool).

Inductive result (A : Type) :=
  | Ok (a : A)
  | Raise (e : exn).
Arguments Ok {A} _.
Arguments Raise {A} _.

(** The user's code: what the body of the [def] named [name] with identity
    [code] does to the world when called, and whether it returns or raises. *)
Class Handlers (U : Type) :=
  body : string → nat → list pyarg → list (string * pyarg) →
         world U → result unit * world U.

(** The operating system's side of [subprocess.Popen(args=..., shell=...)]:
    whether the request is taken or the call raises, and what becomes of the
    state outside the Python objects.  CPython raises [ValueError] for a
    command line with a NUL character in it, [TypeError] for one that is
    neither a string nor a sequence of strings, [OSError] when the shell
    cannot be started; nothing is assumed here about which requests are
    taken. *)
Class Subprocess (U : Type) :=
  spawn : pyval → bool → U → result unit * U.

Fixpoint apply `{Handlers U} (f : pyfunc)
    (args : list pyarg) (kwargs : list (string * pyarg)) (w : world U)
    : result unit * world U :=
  match f with
  | Def name code => body name code args kwargs w
  | Wraps g => apply g args kwargs w
  end.

(** ** Computations: state, exceptions and the invocations made *)

Record outcome (U A : Type) := Outcome {
  res : result A;
  final : world U;
  trace : list event;
}.
Arguments Outcome {U A} _ _ _.
Arguments res {U A} _.
Arguments final {U A} _.
Arguments trace {U A} _.

Definition M (U A : Type) : Type := world U → outcome U A.

Definition ret {U A} (a : A) : M U A := λ w, Outcome (Ok a) w [].

(** An exception ends the computation; the state reached so far stays. *)
Definition bind {U A B} (m : M U A) (k : A → M U B) : M U B := λ w,
  let o := m w in
  match res o with
  | Ok a => let o' := k a (final o) in
            Outcome (res o') (final o') (trace o ++ trace o')
  | Raise e => Outcome (Raise e) (final o) (trace o)
  end.

Definition raise {U A} (e : exn) : M U A := λ w, Outcome (Raise e) w [].

#[global] Instance M_ret {U} : MRet (M U) := λ A, ret.
#[global] Instance M_bind {U} : MBind (M U) := λ A B k m, bind m k.

Definition get_globals {U} : M U registries := λ w, Outcome (Ok (globals w)) w [].

Definition modify_globals {U} (f : registries → registries) : M U unit := λ w,
  Outcome (Ok tt) (World (f (globals w)) (heap w) (next_loc w) (user w)) [].

(** The contents of the dict object at [l]. *)
Definition deref {U} (l : loc) : M U pydict := λ w, Outcome (Ok (heap w l)) w [].

(** A new dict object. *)
Definition alloc {U} (d : pydict) : M U loc := λ w,
  Outcome (Ok (next_loc w))
          (World (globals w) (<[next_loc w := d]> (heap w)) (S (next_loc w)) (user w))
          [].

(** Calling a function object. *)
Definition call `{Handlers U} (f : pyfunc)
    (args : list pyarg) (kwargs : list (string * pyarg)) : M U unit := λ w,
  let r := apply f args kwargs w in
  Outcome r.1 r.2 [Call f args kwargs].

(** [subprocess.Popen(args=..., shell=...)] as an expression statement: the
    request is made with these two arguments and no other; the call raises or
    returns as [spawn] says, and the process object it returns is dropped.
    The registries and the dict objects are out of its reach. *)
Definition popen `{Subprocess U} (args : pyval) (shell : bool) : M U unit := λ w,
  let r := spawn args shell (user w) in
  Outcome r.1 (World (globals w) (heap w) (next_loc w) r.2) [Popen args shell].

(** [d[k]] *)
Definition getitem {U V} (d : gmap string V) (k : string) : M U V :=
  match d !! k with
  | Some v => ret v
  | None => raise (KeyError k)
  end.

Definition ogetitem {U V} (d : ODict.t V) (k : string) : M U V :=
  match ODict.get d k with
  | Some v => ret v
  | None => raise (KeyError k)
  end.

(** [v.split()]: only a [str] has the method. *)
Definition str_split {U} (v : pyval) : M U (list string) :=
  match v with
  | VStr s => ret (Str.split s)
  | _ => raise AttributeError
  end.

(** [l[0]] *)
Definition index0 {U A} (l : list A) : M U A :=
  match l with
  | x :: _ => ret x
  | [] => raise IndexError
  end.

(** [k in d] *)
Definition contains {V} (d : gmap string V) (k : string) : bool :=
  bool_decide (is_Some (d !! k)).

(** [if b: m] *)
Definition when {U} (b : bool) (m : M U unit) : M U unit :=
  if b then m else ret tt.

(** ** Registration *)

Definition with_COMMAND_FUNCTIONS (x : gmap string pyfunc) (g : registries) :=
  Registries x (COMMAND_PARSERS_REGISTRY g) (PARSERS_REGISTRY g)
             (SHELL_COMMANDS_REGISTRY g) (SHELL_COMMAND_ALIASES_REGISTRY g).

Definition with_COMMAND_PARSERS (x : gmap string pyfunc) (g : registries) :=
  Registries (COMMAND_FUNCTIONS_REGISTRY g) x (PARSERS_REGISTRY g)
             (SHELL_COMMANDS_REGISTRY g) (SHELL_COMMAND_ALIASES_REGISTRY g).

Definition with_PARSERS (x : ODict.t pyfunc) (g : registries) :=
  Registries (COMMAND_FUNCTIONS_REGISTRY g) (COMMAND_PARSERS_REGISTRY g) x
             (SHELL_COMMANDS_REGISTRY g) (SHELL_COMMAND_ALIASES_REGISTRY g).

Definition with_SHELL_COMMANDS (x : gset string) (g : registries) :=
  Registries (COMMAND_FUNCTIONS_REGISTRY g) (COMMAND_PARSERS_REGISTRY g)
             (PARSERS_REGISTRY g) x (SHELL_COMMAND_ALIASES_REGISTRY g).

Definition with_SHELL_COMMAND_ALIASES (x : gmap string pyval) (g : registries) :=
  Registries (COMMAND_FUNCTIONS_REGISTRY g) (COMMAND_PARSERS_REGISTRY g)
             (PARSERS_REGISTRY g) (SHELL_COMMANDS_REGISTRY g) x.

Section registration.
Context {U : Type}.

(** The three decorators: the function itself goes into the registry, the
    forwarding wrapper is what the decorated name is bound to. *)
Definition register_command (f : pyfunc) : M U pyfunc :=
  modify_globals (λ g, with_COMMAND_FUNCTIONS
    (dict_update (COMMAND_FUNCTIONS_REGISTRY g) {[ __name__ f := f ]}) g);;
  mret (Wraps f).

Definition register_command_parser (f : pyfunc) : M U pyfunc :=
  modify_globals (λ g, with_COMMAND_PARSERS
    (dict_update (COMMAND_PARSERS_REGISTRY g) {[ __name__ f := f ]}) g);;
  mret (Wraps f).

Definition register_parser (f : pyfunc) : M U pyfunc :=
  modify_globals (λ g, with_PARSERS
    (ODict.update (PARSERS_REGISTRY g) [(__name__ f, f)]) g);;
  mret (Wraps f).

Definition register_shell_command (command : string) : M U unit :=
  trigger ← index0 (Str.split command);
  modify_globals (λ g, with_SHELL_COMMANDS
    ({[ trigger ]} ∪ SHELL_COMMANDS_REGISTRY g) g).

Definition register_shell_command_alias (alias : string) (command_line : pyval)
    : M U unit :=
  processed_alias ← index0 (Str.split alias);
  modify_globals (λ g, with_SHELL_COMMAND_ALIASES
    (dict_update (SHELL_COMMAND_ALIASES_REGISTRY g)
                 {[ processed_alias := command_line ]}) g).

(** The methods of [NTFYOpenClientRealTime]; none of them reads [self]. *)
Definition add_command_function (function : pyfunc) : M U unit :=
  let function_name := __name__ function in
  modify_globals (λ g, with_COMMAND_FUNCTIONS
    (dict_update (COMMAND_FUNCTIONS_REGISTRY g) {[ function_name := function ]}) g).

Definition add_command_parser (function : pyfunc) : M U unit :=
  let function_name := __name__ function in
  modify_globals (λ g, with_COMMAND_PARSERS
    (dict_update (COMMAND_PARSERS_REGISTRY g) {[ function_name := function ]}) g).

Definition add_parser (function : pyfunc) : M U unit :=
  let function_name := __name__ function in
  modify_globals (λ g, with_PARSERS
    (ODict.update (PARSERS_REGISTRY g) [(function_name, function)]) g).

Definition add_shell_command (command : string) : M U unit :=
  modify_globals (λ g, with_SHELL_COMMANDS
    ({[ command ]} ∪ SHELL_COMMANDS_REGISTRY g) g).

Definition add_shell_command_alias (alias : string) (command_line : pyval)
    : M U unit :=
  modify_globals (λ g, with_SHELL_COMMAND_ALIASES
    (dict_update (SHELL_COMMAND_ALIASES_REGISTRY g) {[ alias := command_line ]}) g).

End registration.

(** ** Dispatch *)

Section dispatch.
Context `{Handlers U} {OS : Subprocess U}.

Definition process_command_function (raw_data : loc) : M U unit :=
  d ← deref raw_data;
  message ← getitem d "message";
  arguments ← str_split message;
  command ← index0 arguments;
  g ← get_globals;
  f ← getitem (COMMAND_FUNCTIONS_REGISTRY g) command;
  d ← deref raw_data;
  call f (AStr <$> arguments) [("raw_data"%string, ADict raw_data d)].

Definition process_parser_command (raw_data : loc) : M U unit :=
  d ← deref raw_data;
  message ← getitem d "message";
  arguments ← str_split message;
  command ← index0 arguments;
  g ← get_globals;
  f ← getitem (COMMAND_PARSERS_REGISTRY g) command;
  d ← deref raw_data;
  call f [ADict raw_data d] [].

(** The loop of [process_parser], the way CPython runs [for parser in
    PARSERS_REGISTRY].  The iterator keeps the number of keys the dict had
    when the loop began ([used]), the number of keys it has yet to yield
    ([len]) and its position in the array of entries.  A step raises
    [RuntimeError] when the number of keys is no longer [used]; otherwise it
    goes on from its position in the array as the array is then, skipping
    the holes, and the loop ends at the end of the array; an entry found
    when every key has been yielded is a [RuntimeError] too.  The body
    [PARSERS_REGISTRY[parser](raw_data)] reads the dict as the step found
    it. *)
Fixpoint for_parser_in (used len position : nat) (raw_data : loc) : M U unit :=
  g ← get_globals;
  if decide (ODict.size (PARSERS_REGISTRY g) = used) then
    match ODict.next (PARSERS_REGISTRY g) position with
    | None => mret tt
    | Some (found, parser) =>
        match len with
        | 0 => raise RuntimeError
        | S len' =>
            f ← ogetitem (PARSERS_REGISTRY g) parser;
            d ← deref raw_data;
            call f [ADict raw_data d] [];;
            for_parser_in used len' (S found) raw_data
        end
    end
  else raise RuntimeError.

Definition process_parser (raw_data : loc) : M U unit :=
  g ← get_globals;
  let used := ODict.size (PARSERS_REGISTRY g) in
  for_parser_in used used 0 raw_data.

Definition process_shell_command (raw_data : loc) : M U unit :=
  d ← deref raw_data;
  arguments_str ← getitem d "message";
  popen arguments_str true.

Definition process_shell_alias (raw_data : loc) : M U unit :=
  d ← deref raw_data;
  message ← getitem d "message";
  arguments ← str_split message;
  alias ← index0 arguments;
  g ← get_globals;
  command_line_str ← getitem (SHELL_COMMAND_ALIASES_REGISTRY g) alias;
  popen command_line_str true.

(** [process_message(self, message)]; [message] is the caller's dict, which
    the call unpacks into the keyword arguments of the normalizer. *)
Definition process_message (message : loc) : M U unit :=
  kwargs ← deref message;
  raw_data ← alloc (get_notification_model kwargs);
  d ← deref raw_data;
  text ← getitem d "message";
  arguments ← str_split text;
  first_word ← index0 arguments;
  let command := first_word in
  let alias := first_word in
  (g ← get_globals;
   when (contains (COMMAND_FUNCTIONS_REGISTRY g) command)
        (process_command_function raw_data));;
  (g ← get_globals;
   when (contains (COMMAND_PARSERS_REGISTRY g) command)
        (process_parser_command raw_data));;
  (g ← get_globals;
   when (bool_decide (command ∈ SHELL_COMMANDS_REGISTRY g))
        (process_shell_command raw_data));;
  (g ← get_globals;
   when (contains (SHELL_COMMAND_ALIASES_REGISTRY g) alias)
        (process_shell_alias raw_data));;
  process_parser raw_data.

End dispatch.

(** ** The dispatch order of the specification *)

Module ODictSpec.

(** [d.items()]: every key, in insertion order, with the value stored
    under it. *)
Definition items {V} (d : ODict.t V) : list (string * V) :=
  omap (λ k, pair k <$> ODict.get d k) (ODict.keys d).

(** No key is listed twice: what registration keeps true. *)
Definition wf {V} (d : ODict.t V) : Prop := NoDup (ODict.keys d).

End ODictSpec.

Section sequence.
Context (g : registries) (first_token : string) (tokens : list string)
        (text : pyval) (raw_data : loc) (record : pydict).

(** The command function receives the tokens as positional arguments and
    the record as the keyword argument [raw_data]. *)
Definition command_function_path : list event :=
  match COMMAND_FUNCTIONS_REGISTRY g !! first_token with
  | Some f => [Call f (AStr <$> tokens) [("raw_data"%string, ADict raw_data record)]]
  | None => []
  end.

(** The command parser receives the record alone. *)
Definition command_parser_path : list event :=
  match COMMAND_PARSERS_REGISTRY g !! first_token with
  | Some f => [Call f [ADict raw_data record] []]
  | None => []
  end.

(** A shell command is spawned with the whole message text. *)
Definition shell_command_path : list event :=
  if decide (first_token ∈ SHELL_COMMANDS_REGISTRY g)
  then [Popen text true] else [].

(** An alias is spawned with the command line stored for it. *)
Definition shell_alias_path : list event :=
  match SHELL_COMMAND_ALIASES_REGISTRY g !! first_token with
  | Some command_line => [Popen command_line true]
  | None => []
  end.

(** Every global parser receives the record, in insertion order. *)
Definition global_parsers_path : list event :=
  (λ kv, Call kv.2 [ADict raw_data record] [])
    <$> ODictSpec.items (PARSERS_REGISTRY g).

(** Section 4.3 of the specification: the five paths in their fixed order. *)
Definition dispatch_sequence : list event :=
  command_function_path ++ command_parser_path ++ shell_command_path
    ++ shell_alias_path ++ global_parsers_path.

End sequence.

Definition is_spawn (ev : event) : bool :=
  match ev with
  | Popen _ _ => true
  | Call _ _ _ => false
  end.

(** The spawn requests among some invocations. *)
Definition spawns (evs : list event) : list event :=
  filter (λ ev, is_spawn ev) evs.

(** The handlers a dispatch on [first_token] can reach in the registries. *)
Definition handlers_for (g : registries) (first_token : string) : list pyfunc :=
  option_list (COMMAND_FUNCTIONS_REGISTRY g !! first_token)
    ++ option_list (COMMAND_PARSERS_REGISTRY g !! first_token)
    ++ (ODictSpec.items (PARSERS_REGISTRY g)).*2.

(** The handler of an invocation, when it is a call. *)
Definition callee (ev : event) : option pyfunc :=
  match ev with
  | Call f _ _ => Some f
  | Popen _ _ => None
  end.

Section handler_behaviour.
Context `{Handlers U} {OS : Subprocess U}.

(** The handler returns, whatever it is given. *)
Definition returns (f : pyfunc) : Prop :=
  ∀ args kwargs w, (apply f args kwargs w).1 = Ok tt.

(** The handler leaves the registries as they are. *)
Definition keeps_registries (f : pyfunc) : Prop :=
  ∀ args kwargs w, globals (apply f args kwargs w).2 = globals w.

(** The handler leaves the dict object at [l] as it is. *)
Definition keeps_dict (l : loc) (f : pyfunc) : Prop :=
  ∀ args kwargs w, heap (apply f args kwargs w).2 l = heap w l.

(** A handler that returns and changes neither the registries nor the
    record it is handed; it may do anything to [user]. *)
Definition well_behaved (raw_data : loc) (f : pyfunc) : Prop :=
  returns f ∧ keeps_registries f ∧ keeps_dict raw_data f.

(** Making the invocations of a list one after the other, up to the first
    that raises. *)
Definition replay1 (ev : event) : M U unit :=
  match ev with
  | Call f args kwargs => call f args kwargs
  | Popen args shell => popen args shell
  end.

Fixpoint replay (evs : list event) : M U unit :=
  match evs with
  | [] => mret tt
  | ev :: evs' => replay1 ev;; replay evs'
  end.

(** Along the run of [evs] from [w], every invocation that returns leaves
    the registries and the dict at [raw_data] as they were. *)
Fixpoint guarded (raw_data : loc) (evs : list event) (w : world U) : Prop :=
  match evs with
  | [] => True
  | ev :: evs' =>
      let o := replay1 ev w in
      match res o with
      | Ok _ => globals (final o) = globals w
                ∧ heap (final o) raw_data = heap w raw_data
                ∧ guarded raw_data evs' (final o)
      | Raise _ => True
      end
  end.

(** Along the run of [evs] from [w], every invocation returns and leaves
    the registries and the dict at [raw_data] as they were. *)
Fixpoint undisturbed (raw_data : loc) (evs : list event) (w : world U) : Prop :=
  match evs with
  | [] => True
  | ev :: evs' =>
      let o := replay1 ev w in
      res o = Ok tt
      ∧ globals (final o) = globals w
      ∧ heap (final o) raw_data = heap w raw_data
      ∧ undisturbed raw_data evs' (final o)
  end.

(** An invocation that returns and leaves the registries and the record
    alone in whatever world it is made: the call of a well-behaved handler,
    a request that the operating system takes in every state. *)
Definition dependable (raw_data : loc) (ev : event) : Prop :=
  match ev with
  | Call f _ _ => well_behaved raw_data f
  | Popen args shell => ∀ u, (spawn args shell u).1 = Ok tt
  end.

(** A computation that changes the world through its invocations only:
    making the invocations of its run again, from the same world, makes them
    all, ends in the same world, and raises only what the computation
    raised. *)
Definition retraceable {A} (c : M U A) : Prop :=
  ∀ w, let o := c w in
       let again := replay (trace o) w in
       trace again = trace o
       ∧ final again = final o
       ∧ ∀ e, res again = Raise e → res o = Raise e.

(** The world in which dispatch starts: [w] with the normalized copy of
    the caller's dict at a new address. *)
Definition normalized (message : loc) (w : world U) : world U :=
  final (alloc (get_notification_model (heap w message)) w).

End handler_behaviour.

(** ** Devices of the proofs *)

(** The registries are [g] and the record at [raw] is [d]. *)
Definition at_dispatch {U} (g : registries) (raw : loc) (d : pydict)
    (w : world U) : Prop :=
  globals w = g ∧ heap w raw = d.

(** The calls the loop of [process_parser] makes for some of the keys. *)
Definition parser_calls (g : registries) (raw : loc) (d : pydict)
    (keys : list string) : list event :=
  (λ kv, Call kv.2 [ADict raw d] [])
    <$> omap (λ k, pair k <$> ODict.get (PARSERS_REGISTRY g) k) keys.

(** The four gated paths of the specification, in order. *)
Definition gated_sequence (g : registries) (tok : string) (tokens : list string)
    (text : pyval) (raw : loc) (d : pydict) : list event :=
  command_function_path g tok tokens raw d ++ command_parser_path g tok raw d
    ++ shell_command_path g tok text ++ shell_alias_path g tok.

(** ** The registries that hold handlers *)

Inductive handler_registry :=
  | CommandFunctions
  | CommandParsers
  | GlobalParsers.

(** The handler a name resolves to in a registry. *)
Definition resolve (r : handler_registry) (g : registries) (name : string)
    : option pyfunc :=
  match r with
  | CommandFunctions => COMMAND_FUNCTIONS_REGISTRY g !! name
  | CommandParsers => COMMAND_PARSERS_REGISTRY g !! name
  | GlobalParsers => ODict.get (PARSERS_REGISTRY g) name
  end.

(** The decorator and the method that register into each of them. *)
Definition decorator_of {U} (r : handler_registry) : pyfunc → M U pyfunc :=
  match r with
  | CommandFunctions => register_command
  | CommandParsers => register_command_parser
  | GlobalParsers => register_parser
  end.

Definition method_of {U} (r : handler_registry) : pyfunc → M U unit :=
  match r with
  | CommandFunctions => add_command_function
  | CommandParsers => add_command_parser
  | GlobalParsers => add_parser
  end.

(** Handlers that do nothing. *)
Definition inert : Handlers unit := λ _ _ _ _ w, (Ok tt, w).

(** An operating system that takes every request. *)
Definition obliging : Subprocess unit := λ _ _ u, (Ok tt, u).

(** The handlers stored in some registry. *)
Definition registered (g : registries) (f : pyfunc) : Prop :=
  (∃ k, COMMAND_FUNCTIONS_REGISTRY g !! k = Some f)
  ∨ (∃ k, COMMAND_PARSERS_REGISTRY g !! k = Some f)
  ∨ (∃ k, ODict.get (PARSERS_REGISTRY g) k = Some f).

(** The addresses of the dict objects among the arguments of a call. *)
Definition address (a : pyarg) : option loc :=
  match a with
  | ADict l _ => Some l
  | AStr _ => None
  end.

Definition addresses (args : list pyarg) (kwargs : list (string * pyarg))
    : list loc :=
  omap address (args ++ kwargs.*2).

(** The handler leaves the dict object at [l] as it is unless it is handed
    it. *)
Definition keeps_unhanded `{Handlers U} (l : loc) (f : pyfunc) : Prop :=
  ∀ args kwargs w,
    l ∉ addresses args kwargs → heap (apply f args kwargs w).2 l = heap w l.

(** The registries are [g] and the caller's dict at [message] holds [m]. *)
Definition framed {U} (g : registries) (message : loc) (m : pydict)
    (w : world U) : Prop :=
  globals w = g ∧ heap w message = m.

(** A computation that keeps [framed] and whose value, when it returns,
    satisfies [Q]. *)
Definition keeps_frame {U A} (g : registries) (message : loc) (m : pydict)
    (c : M U A) (Q : A → Prop) : Prop :=
  ∀ w, framed g message m w →
       framed g message m (final (c w)) ∧ ∀ a, res (c w) = Ok a → Q a.

(** ** A sample application *)

(** A handler that writes into every dict it is handed. *)
Definition scribble (handed : list pyarg) (h : loc → pydict) : loc → pydict :=
  foldr (λ a h', match a with
                 | ADict l _ => <[ l := <[ "message"%string := VStr "scribbled" ]> (h' l) ]> h'
                 | AStr _ => h'
                 end) h handed.

(** Handlers told apart by their identity: number 13 raises, number 7 writes
    into what it is handed, every other one counts its calls in [user]. *)
Definition sample_handlers : Handlers nat := λ name code args kwargs w,
  if decide (code = 13) then (Raise (Exception name), w)
  else if decide (code = 7) then
    (Ok tt, World (globals w) (scribble (args ++ kwargs.*2) (heap w))
                  (next_loc w) (user w))
  else (Ok tt, World (globals w) (heap w) (next_loc w) (S (user w))).

(** Whether a string has a NUL character in it. *)
Fixpoint has_nul (s : string) : bool :=
  match s with
  | EmptyString => false
  | String c s' => (nat_of_ascii c =? 0) || has_nul s'
  end.

(** An operating system that starts the shell for every request that gets
    as far: [subprocess.Popen] raises [ValueError] for a NUL in the command
    line and [TypeError] for a command line that is neither a string nor a
    list of strings. *)
Definition sample_subprocess : Subprocess nat := λ args shell u,
  match args with
  | VStr s => (if has_nul s then Raise ValueError else Ok tt, u)
  | VList l => (if existsb has_nul l then Raise ValueError else Ok tt, u)
  | _ => (Raise TypeError, u)
  end.

(** A world whose only dict object, at address 0, is an inbound event. *)
Definition world_with {U} (g : registries) (event : pydict) (u : U) : world U :=
  World g (λ l, if decide (l = 0) then event else ∅) 1 u.

(** An application that registers handlers for ["reboot"] on every path. *)
Definition reboot_setup : M nat unit :=
  register_command (Def "reboot" 1);;
  add_command_parser (Def "reboot" 2);;
  register_shell_command "reboot --force";;
  register_shell_command_alias "reboot" (VList ["systemctl"; "reboot"]%string);;
  register_parser (Def "log" 3);;
  add_parser (Def "forward" 4).

Definition reboot_world : world nat :=
  final (reboot_setup
           (world_with empty_registries
              {[ "message"%string := VStr "reboot now";
                 "title"%string := VStr "ops" ]} 0)).

(** The same application receiving a message that is one space. *)
Definition blank_message_world : world nat :=
  final (reboot_setup
           (world_with empty_registries {[ "message"%string := VStr " " ]} 0)).

(** The same application receiving an event without a message. *)
Definition no_message_world : world nat :=
  final (reboot_setup
           (world_with empty_registries {[ "title"%string := VStr "ops" ]} 0)).

(** An application that takes ["deploy"] as a command function, as a shell
    command and as an alias. *)
Definition deploy_setup : M nat unit :=
  register_command (Def "deploy" 1);;
  add_shell_command "deploy";;
  add_shell_command_alias "deploy" (VList ["ssh"; "host"; "run-deploy"]%string);;
  add_parser (Def "log" 3).

Definition deploy_world : world nat :=
  final (deploy_setup
           (world_with empty_registries
              {[ "message"%string := VStr "deploy prod" ]} 0)).

(** An application whose command function for ["deploy"] is well behaved and
    whose command parser for it raises. *)
Definition failing_setup : M nat unit :=
  register_command (Def "deploy" 1);;
  register_command_parser (Def "deploy" 13);;
  add_shell_command "deploy";;
  add_parser (Def "log" 3).

Definition failing_world : world nat :=
  final (failing_setup
           (world_with empty_registries
              {[ "message"%string := VStr "deploy prod" ]} 0)).

(** An application with the shell command ["ping"]. *)
Definition ping_setup : M nat unit :=
  register_shell_command "ping";;
  add_parser (Def "log" 3).

Definition ping_world : world nat :=
  final (ping_setup
           (world_with empty_registries {[ "message"%string := VStr "ping" ]} 0)).

(** The same with a command function for ["ping"] that writes into the
    record it is handed. *)
Definition scribbling_setup : M nat unit :=
  register_command (Def "ping" 7);;
  register_shell_command "ping";;
  add_parser (Def "log" 3).

Definition scribbling_world : world nat :=
  final (scribbling_setup
           (world_with empty_registries {[ "message"%string := VStr "ping" ]} 0)).

(** An application whose command function for ["deploy"] writes into the
    record it is handed, and which has the alias ["deploy"]. *)
Definition scribbling_deploy_setup : M nat unit :=
  register_command (Def "deploy" 7);;
  register_shell_command_alias "deploy" (VList ["ssh"; "host"; "run-deploy"]%string);;
  add_parser (Def "log" 3).

Definition scribbling_deploy_world : world nat :=
  final (scribbling_deploy_setup
           (world_with empty_registries
              {[ "message"%string := VStr "deploy prod" ]} 0)).

(** The trigger ["ls -la"] registered through the method, or through the
    module-level function, and a message that is that very command. *)
Definition ls_added_world : world unit :=
  final (add_shell_command "ls -la"
           (world_with empty_registries {[ "message"%string := VStr "ls -la" ]} tt)).

Definition ls_registered_world : world unit :=
  final (register_shell_command "ls -la"
           (world_with empty_registries {[ "message"%string := VStr "ls -la" ]} tt)).

(** ** Properties of whole runs *)

(** Every invocation a computation makes satisfies [P]. *)
Definition emits {U A} (P : event → Prop) (c : M U A) : Prop :=
  ∀ w, Forall P (trace (c w)).

(** A computation makes at most [n] spawn requests. *)
Definition spawns_at_most {U A} (n : nat) (c : M U A) : Prop :=
  ∀ w, length (spawns (trace (c w))) ≤ n.

(** A spawn request goes through the shell. *)
Definition through_shell (ev : event) : Prop :=
  match ev with
  | Popen _ shell => shell = true
  | Call _ _ _ => True
  end.

(** The only dict object a call hands over is the one at [raw]. *)
Definition hands_only (raw : loc) (ev : event) : Prop :=
  match ev with
  | Call _ args kwargs => Forall (λ l, l = raw) (addresses args kwargs)
  | Popen _ _ => True
  end.

(** ** The transport callbacks *)

(** [DEBUG: bool = False] *)
Definition DEBUG : bool := false.

(** An [NTFYOpenClientRealTime] object: the attributes its methods read,
    each unset ([None]) or set.  [websocketapp] is told by its url; the
    other three have the types their commented-out assignments give them. *)
Record client := Client {
  websocketapp : option string;
  pushover_websocket_login_string : option string;
  send_login : option pyfunc;
  pushover_websocket_server_commands : option (gmap string pyfunc);
}.

(** [self.name]: an attribute that was never set is an [AttributeError]. *)
Definition getattr {U A} (attribute : option A) : M U A :=
  match attribute with
  | Some v => mret v
  | None => raise AttributeError
  end.

(** [__init__]: the only assignment is to [self.websocketapp]. *)
Definition __init__ (ntfy_websocket_server_url : string) : client :=
  Client (Some ntfy_websocket_server_url) None None None.

Section transport.
Context `{Handlers U}.

Definition _on_open (self : client) (websocketapp : string) : M U unit :=
  pushover_websocket_login_string ← getattr (pushover_websocket_login_string self);
  send_login ← getattr (send_login self);
  call send_login []
       [("pushover_websocket_connection"%string, AStr websocketapp);
        ("pushover_websocket_login_string"%string,
         AStr pushover_websocket_login_string)].

(** The name [PUSHOVER_WEBSOCKET_SERVER_MESSAGES_MEANING] is bound nowhere:
    reading it would be a [NameError]. *)
Definition _on_message (self : client) (websocketapp : string) (message : string)
    : M U unit :=
  commands ← getattr (pushover_websocket_server_commands self);
  (if contains commands message then
     commands ← getattr (pushover_websocket_server_commands self);
     f ← getitem commands message;
     call f [] []
   else mret tt);;
  if DEBUG then raise (Exception "NameError") else mret tt.

Definition _on_error (self : client) (websocketapp : string) (exception : exn)
    : M U unit :=
  mret tt.

Definition _on_close (self : client) (websocketapp : string)
    (close_status_code : Z) (close_msg : string) : M U unit :=
  mret tt.

End transport.

(** ** More of the sample application *)

(** Handlers of which number 21 registers a global parser when called. *)
Definition registering_handlers : Handlers nat := λ name code args kwargs w,
  if decide (code = 21) then (Ok tt, final (add_parser (Def "late" 22) w))
  else (Ok tt, World (globals w) (heap w) (next_loc w) (S (user w))).

(** An application whose only global parser registers another one. *)
Definition growing_world : world nat :=
  final (add_parser (Def "grow" 21)
           (world_with empty_registries {[ "message"%string := VStr "hello" ]} 0)).

(** Handlers of which number 31 deletes the global parser ["second"] and
    registers a parser ["third"], and number 32 deletes the global parser
    ["only"] and registers it again. *)
Definition swapping_handlers : Handlers nat := λ name code args kwargs w,
  let P := PARSERS_REGISTRY (globals w) in
  if decide (code = 31) then
    (Ok tt, World (with_PARSERS
                     (ODict.set (ODict.delete P "second") "third" (Def "third" 3))
                     (globals w))
                  (heap w) (next_loc w) (user w))
  else if decide (code = 32) then
    (Ok tt, World (with_PARSERS
                     (ODict.set (ODict.delete P "only") "only" (Def "only" 32))
                     (globals w))
                  (heap w) (next_loc w) (user w))
  else (Ok tt, World (globals w) (heap w) (next_loc w) (S (user w))).

(** An application whose first global parser swaps the second for a third. *)
Definition swapping_world : world nat :=
  final ((add_parser (Def "first" 31);; add_parser (Def "second" 3))
           (world_with empty_registries {[ "message"%string := VStr "hello" ]} 0)).

(** An application whose only global parser registers itself anew. *)
Definition renewing_world : world nat :=
  final (add_parser (Def "only" 32)
           (world_with empty_registries {[ "message"%string := VStr "hello" ]} 0)).

(** An application whose command function for ["ping"] rewrites the record
    and which has a command parser for ["ping"] too. *)
Definition rewriting_setup : M nat unit :=
  register_command (Def "ping" 7);;
  add_command_parser (Def "ping" 2).

Definition rewriting_world : world nat :=
  final (rewriting_setup
           (world_with empty_registries {[ "message"%string := VStr "ping" ]} 0)).

(** An event whose message is a command line of two words. *)
Definition uptime_world : world nat :=
  world_with empty_registries {[ "message"%string := VStr "uptime -p" ]} 0.

(** An event whose message is a number. *)
Definition number_world : world nat :=
  world_with empty_registries {[ "message"%string := VInt 42 ]} 0.

(** A message with a NUL character after the command word. *)
Definition nul_message : string :=
  String.append "ping " (String Ascii.zero EmptyString).

(** An application with the shell command and the alias ["ping"], receiving
    that message. *)
Definition nul_setup : M nat unit :=
  register_shell_command "ping";;
  register_shell_command_alias "ping" (VStr "ping -c 1 localhost");;
  add_parser (Def "log" 3).

Definition nul_world : world nat :=
  final (nul_setup
           (world_with empty_registries {[ "message"%string := VStr nul_message ]} 0)).

(** An application with one command function, receiving ["reboot now"]. *)
Definition one_command_world : world nat :=
  final (add_command_function (Def "reboot" 1)
           (world_with empty_registries
              {[ "message"%string := VStr "reboot now" ]} 0)).

(** * Properties *)

(** ** The normalizer *)

Lemma notification_dict_fields :
  notification_dict = list_to_map ((λ F, (F, VNone)) <$> canonical_fields).
Proof. reflexivity. Qed.

Lemma fields_of_defaults (l : list string) :
  ((λ F, (F, VNone)) <$> l).*1 = l.
Proof. induction l as [|F l IH]; csimpl; [done|]. by rewrite IH. Qed.

Lemma canonical_fields_NoDup : NoDup canonical_fields.
Proof. apply (bool_decide_unpack _). vm_compute. exact I. Qed.

Lemma notification_dict_lookup (field : string) :
  notification_dict !! field
  = if decide (field ∈ canonical_fields) then Some VNone else None.
Proof.
  rewrite notification_dict_fields. case_decide as Hin.
  - apply elem_of_list_to_map.
    + rewrite fields_of_defaults. apply canonical_fields_NoDup.
    + apply list_elem_of_fmap. eauto.
  - apply not_elem_of_list_to_map.
    by rewrite fields_of_defaults.
Qed.

Lemma get_notification_model_lookup (kwargs : pydict) (field : string) :
  get_notification_model kwargs !! field = overlay_on_absent kwargs field.
Proof.
  unfold get_notification_model, dict_update, overlay_on_absent.
  rewrite lookup_union, notification_dict_lookup.
  destruct (kwargs !! field); by case_decide.
Qed.

(** C3: the normalizer is the input overlaid on the twenty canonical fields
    bound to [None].  For a canonical field [F]: the empty input gives
    [None], the input [{F: v}] gives [v], and [F] is a key of the output for
    every input; every entry of the input, canonical or not, is in the output
    unchanged. *)
Theorem get_notification_model_overlays (kwargs : pydict) (F : string) (v : pyval) :
  F ∈ canonical_fields →
  get_notification_model ∅ !! F = Some VNone
  ∧ get_notification_model {[ F := v ]} !! F = Some v
  ∧ is_Some (get_notification_model kwargs !! F)
  ∧ (∀ k x, kwargs !! k = Some x → get_notification_model kwargs !! k = Some x)
  ∧ (∀ k, get_notification_model kwargs !! k = overlay_on_absent kwargs k)
  ∧ length canonical_fields = 20
  ∧ dom (get_notification_model kwargs) = dom kwargs ∪ list_to_set canonical_fields.
Proof.
  intros HF. split_and!.
  - rewrite get_notification_model_lookup. unfold overlay_on_absent.
    rewrite lookup_empty. by rewrite decide_True.
  - rewrite get_notification_model_lookup. unfold overlay_on_absent.
    by rewrite lookup_singleton_eq.
  - rewrite get_notification_model_lookup. unfold overlay_on_absent.
    destruct (kwargs !! F); [eauto|]. rewrite decide_True by done. eauto.
  - intros k x Hk. rewrite get_notification_model_lookup.
    unfold overlay_on_absent. by rewrite Hk.
  - apply get_notification_model_lookup.
  - reflexivity.
  - unfold get_notification_model, dict_update. rewrite dom_union_L.
    by rewrite notification_dict_fields, dom_list_to_map_L, fields_of_defaults.
Qed.

Lemma get_notification_model_overlays_witness :
  let kwargs : pydict := {[ "message" := VStr "hi"; "extra" := VInt 7 ]}%string in
  get_notification_model ∅ !! "title"%string = Some VNone
  ∧ get_notification_model kwargs !! "extra"%string = Some (VInt 7).
Proof.
  intros kwargs.
  assert (Hin : "title"%string ∈ canonical_fields)
    by (apply (bool_decide_unpack _); vm_compute; exact I).
  destruct (get_notification_model_overlays kwargs "title" (VStr "t") Hin)
    as (Hempty & _ & _ & Hextra & _).
  split; [exact Hempty|]. apply Hextra. reflexivity.
Defined.

(** ** Running computations *)

Ltac unfold_M :=
  unfold mbind, M_bind, mret, M_ret, bind, ret, raise, get_globals, deref,
    getitem, ogetitem, str_split, index0, when, call, popen, modify_globals.

Section running.
Context {U : Type}.
Implicit Types (w : world U).

(** A step that neither raises, nor changes the world, nor invokes
    anything hands its value to what follows. *)
Lemma bind_pure {A B} (m : M U A) (k : A → M U B) w a :
  m w = Outcome (Ok a) w [] → (m ≫= k) w = k a w.
Proof. intros Hm. unfold_M. rewrite Hm. simpl. by destruct (k a w). Qed.

Lemma bind_ok {A B} (m : M U A) (k : A → M U B) w a w' :
  m w = Outcome (Ok a) w' [] → (m ≫= k) w = k a w'.
Proof. intros Hm. unfold_M. rewrite Hm. simpl. by destruct (k a w'). Qed.

Lemma bind_raise {A B} (m : M U A) (k : A → M U B) w e w' t :
  m w = Outcome (Raise e) w' t → (m ≫= k) w = Outcome (Raise e) w' t.
Proof. intros Hm. unfold_M. by rewrite Hm. Qed.

Lemma ret_unit_run w : (mret tt : M U unit) w = Outcome (Ok tt) w [].
Proof. done. Qed.

Lemma get_globals_run w : get_globals w = Outcome (Ok (globals w)) w [].
Proof. done. Qed.

Lemma deref_run l w : deref l w = Outcome (Ok (heap w l)) w [].
Proof. done. Qed.

Lemma getitem_run {V} (d : gmap string V) k v w :
  d !! k = Some v → getitem d k w = Outcome (Ok v) w [].
Proof. intros Hk. unfold getitem. by rewrite Hk. Qed.

Lemma getitem_KeyError {V} (d : gmap string V) k w :
  d !! k = None → getitem d k w = Outcome (Raise (KeyError k)) w [] (A := V).
Proof. intros Hk. unfold getitem. by rewrite Hk. Qed.

Lemma ogetitem_run {V} (d : ODict.t V) k v w :
  ODict.get d k = Some v → ogetitem d k w = Outcome (Ok v) w [].
Proof. intros Hk. unfold ogetitem. by rewrite Hk. Qed.

Lemma bind_getitem {V B} (d : gmap string V) k v (c : V → M U B) w :
  d !! k = Some v → (getitem d k ≫= c) w = c v w.
Proof. intros Hk. by apply bind_pure, getitem_run. Qed.

Lemma bind_ogetitem {V B} (d : ODict.t V) k v (c : V → M U B) w :
  ODict.get d k = Some v → (ogetitem d k ≫= c) w = c v w.
Proof. intros Hk. by apply bind_pure, ogetitem_run. Qed.

Lemma str_split_run s w :
  str_split (VStr s) w = Outcome (Ok (Str.split s)) w [].
Proof. done. Qed.

Lemma str_split_AttributeError v w :
  (∀ s, v ≠ VStr s) →
  str_split v w = Outcome (Raise AttributeError) w [].
Proof. intros Hv. destruct v; try done. by destruct (Hv s). Qed.

Lemma index0_run {A} (x : A) l w : index0 (x :: l) w = Outcome (Ok x) w [].
Proof. done. Qed.

Lemma index0_IndexError {A} w :
  index0 (@nil A) w = Outcome (Raise IndexError) w [].
Proof. done. Qed.

End running.

(** One step of a computation whose value is known. *)
Ltac pure_step :=
  first
    [ rewrite (bind_pure _ _ _ _ (get_globals_run _))
    | rewrite (bind_pure _ _ _ _ (deref_run _ _))
    | rewrite (bind_pure _ _ _ _ (str_split_run _ _))
    | rewrite (bind_pure _ _ _ _ (index0_run _ _ _))
    | erewrite bind_getitem by eassumption
    | erewrite bind_ogetitem by eassumption ].

Section replaying.
Context `{Handlers U} {OS : Subprocess U}.
Implicit Types (w : world U) (evs : list event) (m : M U unit).

Lemma replay_app evs1 evs2 w :
  replay (evs1 ++ evs2) w = (replay evs1;; replay evs2) w.
Proof.
  revert w. induction evs1 as [|ev evs1 IH]; intros w; simpl.
  - unfold_M. simpl. by destruct (replay evs2 w).
  - unfold_M. simpl. destruct (res (replay1 ev w)); simpl; [|done].
    rewrite IH. unfold_M. simpl.
    destruct (res (replay evs1 _)); simpl; [|done].
    by rewrite (assoc_L (++)).
Qed.

(** Sequencing two computations that each make a list of invocations. *)
Lemma seq_replay m1 m2 evs1 evs2 w :
  m1 w = replay evs1 w →
  (res (replay evs1 w) = Ok tt →
   m2 (final (replay evs1 w)) = replay evs2 (final (replay evs1 w))) →
  (m1;; m2) w = replay (evs1 ++ evs2) w.
Proof.
  intros H1 H2. rewrite replay_app. unfold_M. rewrite H1.
  destruct (res (replay evs1 w)) as [[]|e] eqn:Hres; [|done].
  by rewrite H2.
Qed.

Lemma replay_single ev w : replay [ev] w = replay1 ev w.
Proof.
  simpl. unfold_M. destruct (replay1 ev w) as [[[]|e] w' t]; simpl; [|done].
  by rewrite (right_id_L [] (++)).
Qed.

(** Two continuations that agree where the first part returns. *)
Lemma bind_ext_at {A B} (m : M U A) (k1 k2 : A → M U B) w :
  (∀ a, res (m w) = Ok a → k1 a (final (m w)) = k2 a (final (m w))) →
  (m ≫= k1) w = (m ≫= k2) w.
Proof.
  intros Hk. unfold_M. destruct (res (m w)) as [a|e] eqn:Hres; [|done].
  by rewrite Hk.
Qed.

Lemma trace_replay_prefix evs w : trace (replay evs w) `prefix_of` evs.
Proof.
  revert w. induction evs as [|ev evs IH]; intros w; simpl.
  - by exists [].
  - unfold_M. destruct ev; simpl.
    + destruct (apply _ _ _ _).1; simpl.
      * apply prefix_cons, IH.
      * apply prefix_cons, prefix_nil.
    + destruct (spawn _ _ _).1; simpl.
      * apply prefix_cons, IH.
      * apply prefix_cons, prefix_nil.
Qed.

Lemma guarded_app raw evs1 evs2 w :
  guarded raw (evs1 ++ evs2) w ↔
  guarded raw evs1 w
  ∧ (res (replay evs1 w) = Ok tt → guarded raw evs2 (final (replay evs1 w))).
Proof.
  revert w. induction evs1 as [|ev evs1 IH]; intros w; simpl.
  - unfold_M. simpl. intuition congruence.
  - unfold_M. destruct (res (replay1 ev w)) as [[]|e]; simpl.
    + rewrite IH. destruct (res (replay evs1 _)) as [[]|]; simpl; intuition congruence.
    + intuition congruence.
Qed.

(** The registries and the record survive a guarded run that returns. *)
Lemma guarded_final raw evs w :
  guarded raw evs w → res (replay evs w) = Ok tt →
  globals (final (replay evs w)) = globals w
  ∧ heap (final (replay evs w)) raw = heap w raw.
Proof.
  revert w. induction evs as [|ev evs IH]; intros w; simpl; [done|].
  unfold_M. destruct (res (replay1 ev w)) as [[]|e]; simpl; [|done].
  intros (Hg & Hh & Hrest) Hres.
  destruct (IH _ Hrest) as [Hg' Hh'].
  - by destruct (res (replay evs _)).
  - destruct (res (replay evs _)); simpl in *; split; congruence.
Qed.

End replaying.


Module ODictFacts.

Lemma get_keys {V} (d : ODict.t V) (k : string) :
  k ∈ ODict.keys d → is_Some (ODict.get d k).
Proof.
  unfold ODict.keys, ODict.entries.
  induction d as [|[[k' v]|] d IH]; csimpl.
  - by intros ?%elem_of_nil.
  - intros Hk. case_decide; [eauto|].
    apply IH. apply elem_of_cons in Hk as [->|Hk]; done.
  - done.
Qed.

Lemma get_None {V} (d : ODict.t V) (k : string) :
  k ∉ ODict.keys d → ODict.get d k = None.
Proof.
  unfold ODict.keys, ODict.entries.
  induction d as [|[[k' v]|] d IH]; csimpl; [done| |done].
  intros Hk. apply not_elem_of_cons in Hk as [Hne Hk].
  rewrite decide_False by done. by apply IH.
Qed.

(** On a dict that lists no key twice, the items are the entries. *)
Lemma items_wf {V} (d : ODict.t V) :
  ODictSpec.wf d → ODictSpec.items d = ODict.entries d.
Proof.
  unfold ODictSpec.wf, ODictSpec.items, ODict.keys, ODict.entries.
  induction d as [|[[k v]|] d IH]; csimpl; [done| |done].
  intros [Hk Hd]%NoDup_cons. rewrite decide_True by done. simpl. f_equal.
  rewrite <- (IH Hd) at 2. clear IH.
  apply list_omap_ext, Forall_Forall2_diag, Forall_forall. intros k' Hk'.
  rewrite decide_False; [done|]. by intros ->.
Qed.

(** The keys from some position on are keys of the dict. *)
Lemma keys_drop {V} (d : ODict.t V) (i : nat) (k : string) :
  k ∈ ODict.keys (drop i d) → k ∈ ODict.keys d.
Proof.
  unfold ODict.keys, ODict.entries.
  intros ([k' v] & -> & Hkv)%list_elem_of_fmap.
  apply list_elem_of_omap in Hkv as (e & He & Hkv).
  apply list_elem_of_fmap. exists (k', v). split; [done|].
  apply list_elem_of_omap. exists e. split; [|done].
  rewrite <- (take_drop i d). apply elem_of_app. by right.
Qed.

(** What the iterator finds is the first of the entries that are left. *)
Lemma scan_None {V} (l : ODict.t V) :
  ODict.scan l = None ↔ ODict.entries l = [].
Proof.
  unfold ODict.entries. induction l as [|[[k v]|] l IH]; csimpl; [done..|].
  rewrite fmap_None. done.
Qed.

Lemma scan_Some {V} (l : ODict.t V) (j : nat) (k : string) :
  ODict.scan l = Some (j, k) →
  ∃ v, ODict.entries l = (k, v) :: ODict.entries (drop (S j) l).
Proof.
  unfold ODict.entries. revert j.
  induction l as [|[[k' v]|] l IH]; intros j; csimpl; [done| |].
  - intros [= <- <-]. by exists v.
  - intros ([j' k''] & Hscan & [= -> ->])%fmap_Some. simpl. by apply IH.
Qed.

Lemma next_None {V} (d : ODict.t V) (i : nat) :
  ODict.next d i = None ↔ ODict.entries (drop i d) = [].
Proof. unfold ODict.next. rewrite fmap_None. apply scan_None. Qed.

Lemma next_Some {V} (d : ODict.t V) (i found : nat) (k : string) :
  ODict.next d i = Some (found, k) →
  ∃ v, ODict.entries (drop i d) = (k, v) :: ODict.entries (drop (S found) d).
Proof.
  unfold ODict.next.
  intros ([j k'] & Hscan & [= -> ->])%fmap_Some.
  destruct (scan_Some _ _ _ Hscan) as [v Hv]. exists v.
  rewrite Hv, drop_drop. simpl. by rewrite Nat.add_succ_r.
Qed.

End ODictFacts.

Section paths.
Context `{Handlers U} {OS : Subprocess U}.
Context (g : registries) (raw : loc) (d : pydict)
        (s : string) (tok : string) (rest : list string).
Context (Htext : d !! "message"%string = Some (VStr s))
        (Hsplit : Str.split s = tok :: rest).
Implicit Types (w : world U).

Local Abbreviation at_dispatch := (at_dispatch g raw d).
Local Abbreviation parser_calls := (parser_calls g raw d).

Lemma command_function_step w :
  at_dispatch w →
  (g' ← get_globals;
   when (contains (COMMAND_FUNCTIONS_REGISTRY g') tok)
        (process_command_function raw)) w
  = replay (command_function_path g tok (tok :: rest) raw d) w.
Proof.
  intros [Hg Hd]. pure_step. rewrite Hg.
  unfold command_function_path, contains.
  destruct (COMMAND_FUNCTIONS_REGISTRY g !! tok) as [f|] eqn:Hf.
  - rewrite bool_decide_true by eauto. unfold when, process_command_function.
    pure_step. rewrite Hd. pure_step. pure_step. rewrite Hsplit.
    pure_step. pure_step. rewrite Hg. pure_step. pure_step. rewrite Hd.
    by rewrite replay_single.
  - rewrite bool_decide_false; [done|]. by intros [? ?].
Qed.

Lemma command_parser_step w :
  at_dispatch w →
  (g' ← get_globals;
   when (contains (COMMAND_PARSERS_REGISTRY g') tok)
        (process_parser_command raw)) w
  = replay (command_parser_path g tok raw d) w.
Proof.
  intros [Hg Hd]. pure_step. rewrite Hg.
  unfold command_parser_path, contains.
  destruct (COMMAND_PARSERS_REGISTRY g !! tok) as [f|] eqn:Hf.
  - rewrite bool_decide_true by eauto. unfold when, process_parser_command.
    pure_step. rewrite Hd. pure_step. pure_step. rewrite Hsplit.
    pure_step. pure_step. rewrite Hg. pure_step. pure_step. rewrite Hd.
    by rewrite replay_single.
  - rewrite bool_decide_false; [done|]. by intros [? ?].
Qed.

Lemma shell_command_step w :
  at_dispatch w →
  (g' ← get_globals;
   when (bool_decide (tok ∈ SHELL_COMMANDS_REGISTRY g'))
        (process_shell_command raw)) w
  = replay (shell_command_path g tok (VStr s)) w.
Proof.
  intros [Hg Hd]. pure_step. rewrite Hg. unfold shell_command_path.
  case_decide as Hin.
  - rewrite bool_decide_true by done. unfold when, process_shell_command.
    pure_step. rewrite Hd. pure_step. by rewrite replay_single.
  - by rewrite bool_decide_false.
Qed.

Lemma shell_alias_step w :
  at_dispatch w →
  (g' ← get_globals;
   when (contains (SHELL_COMMAND_ALIASES_REGISTRY g') tok)
        (process_shell_alias raw)) w
  = replay (shell_alias_path g tok) w.
Proof.
  intros [Hg Hd]. pure_step. rewrite Hg.
  unfold shell_alias_path, contains.
  destruct (SHELL_COMMAND_ALIASES_REGISTRY g !! tok) as [cl|] eqn:Hf.
  - rewrite bool_decide_true by eauto. unfold when, process_shell_alias.
    pure_step. rewrite Hd. pure_step. pure_step. rewrite Hsplit.
    pure_step. pure_step. rewrite Hg. pure_step.
    by rewrite replay_single.
  - rewrite bool_decide_false; [done|]. by intros [? ?].
Qed.

Lemma for_parser_in_replay len i w :
  let P := PARSERS_REGISTRY g in
  at_dispatch w →
  len = length (ODict.entries (drop i P)) →
  guarded raw (parser_calls (ODict.keys (drop i P))) w →
  for_parser_in (ODict.size P) len i raw w
  = replay (parser_calls (ODict.keys (drop i P))) w.
Proof.
  intros P. revert i w.
  induction len as [|len IH]; intros i w [Hg Hd] Hlen Hguard.
  - symmetry in Hlen. apply length_zero_iff_nil in Hlen.
    simpl. pure_step. rewrite Hg. rewrite decide_True by done. fold P.
    rewrite (proj2 (ODictFacts.next_None _ _) Hlen).
    unfold ODict.keys. by rewrite Hlen.
  - destruct (ODict.next P i) as [[found k]|] eqn:Hnext.
    2: { apply ODictFacts.next_None in Hnext. by rewrite Hnext in Hlen. }
    destruct (ODictFacts.next_Some _ _ _ _ Hnext) as [v Hv].
    assert (is_Some (ODict.get P k)) as [f Hf].
    { apply ODictFacts.get_keys, (ODictFacts.keys_drop _ i).
      unfold ODict.keys. rewrite Hv. apply elem_of_cons. by left. }
    unfold ODict.keys, parser_calls in *. rewrite Hv in Hguard, Hlen |- *.
    csimpl in Hguard. csimpl. fold P in Hguard |- *.
    rewrite Hf in Hguard |- *. simpl in Hguard |- *.
    pure_step. rewrite Hg. fold P. rewrite decide_True by done.
    rewrite Hnext. pure_step. pure_step. rewrite Hd.
    apply bind_ext_at. intros [] Hres. simpl in Hres. rewrite Hres in Hguard.
    destruct Hguard as (Hg' & Hd' & Hguard).
    apply IH; [|simpl in Hlen; congruence|done]. split; simpl; congruence.
Qed.

Lemma process_parser_replay w :
  at_dispatch w →
  guarded raw (global_parsers_path g raw d) w →
  process_parser raw w = replay (global_parsers_path g raw d) w.
Proof.
  intros Hw Hguard. unfold process_parser. pure_step.
  destruct Hw as [Hg Hd]. rewrite Hg. cbv zeta.
  by apply (for_parser_in_replay _ 0).
Qed.

(** Sequencing along a guarded run. *)
Lemma seq_guarded (m1 m2 : M U unit) evs1 evs2 w :
  at_dispatch w →
  guarded raw (evs1 ++ evs2) w →
  (∀ w', at_dispatch w' → m1 w' = replay evs1 w') →
  (∀ w', at_dispatch w' → guarded raw evs2 w' → m2 w' = replay evs2 w') →
  (m1;; m2) w = replay (evs1 ++ evs2) w.
Proof.
  intros Hw [Hg1 Hg2]%guarded_app H1 H2.
  apply seq_replay; [by apply H1|]. intros Hres.
  destruct (guarded_final _ _ _ Hg1 Hres) as [Hg Hd].
  destruct Hw as [Hg' Hd'].
  apply H2; [split; congruence|by apply Hg2].
Qed.

End paths.

Section dispatching.
Context `{Handlers U} {OS : Subprocess U}.
Implicit Types (w : world U) (message : loc).

Lemma bind_assoc_at {A B C} (m : M U A) (f : A → M U B) (k : B → M U C) w :
  ((m ≫= f) ≫= k) w = (m ≫= λ a, f a ≫= k) w.
Proof.
  unfold_M. destruct (m w) as [[a|e] w1 t1]; simpl; [|done].
  destruct (f a w1) as [[b|e] w2 t2]; simpl; [|done].
  by rewrite (assoc_L (++)).
Qed.

Lemma bind_cong_at {A B} (m1 m2 : M U A) (k : A → M U B) w :
  m1 w = m2 w → (m1 ≫= k) w = (m2 ≫= k) w.
Proof. intros Hm. unfold_M. by rewrite Hm. Qed.

Lemma replay_app_then evs1 evs2 (k : M U unit) w :
  (replay evs1;; replay evs2;; k) w = (replay (evs1 ++ evs2);; k) w.
Proof.
  rewrite <- (bind_assoc_at (replay evs1) (λ _, replay evs2) (λ _, k)).
  apply bind_cong_at. symmetry. apply replay_app.
Qed.

Lemma alloc_run d w :
  alloc d w
  = Outcome (Ok (next_loc w))
      (World (globals w) (<[next_loc w := d]> (heap w)) (S (next_loc w)) (user w)) [].
Proof. done. Qed.

Lemma normalized_at_dispatch message w :
  at_dispatch (globals w) (next_loc w) (get_notification_model (heap w message))
              (normalized message w).
Proof. split; simpl; [done|]. apply fn_lookup_insert. Qed.

(** A guarded path followed by the rest of the dispatch. *)
Lemma seq_gated g raw d (m1 m2 r2 : M U unit) evs1 evs2 w :
  at_dispatch g raw d w →
  guarded raw (evs1 ++ evs2) w →
  (∀ w', at_dispatch g raw d w' → m1 w' = replay evs1 w') →
  (∀ w', at_dispatch g raw d w' → guarded raw evs2 w' → m2 w' = r2 w') →
  (m1;; m2) w = (replay evs1;; r2) w.
Proof.
  intros Hw [Hguard Hrest]%guarded_app H1 H2. unfold_M. rewrite (H1 w Hw).
  destruct (res (replay evs1 w)) as [[]|e] eqn:Hres; [|done].
  destruct (guarded_final _ _ _ Hguard Hres) as [Hg Hd].
  destruct Hw as [Hg' Hd'].
  rewrite H2; [done| |by apply Hrest]. split; congruence.
Qed.

Lemma dispatch_sequence_gated g tok tokens text raw d :
  dispatch_sequence g tok tokens text raw d
  = gated_sequence g tok tokens text raw d ++ global_parsers_path g raw d.
Proof. unfold dispatch_sequence, gated_sequence. by rewrite <- !(assoc_L (++)). Qed.

(** On a message with a first token, [process_message] makes the
    invocations of the gated paths, for as long as they return and leave
    the registries and the record alone, and then runs the global parsers. *)
Lemma process_message_gated message w s tok rest :
  let raw := next_loc w in
  let d := get_notification_model (heap w message) in
  let evs := gated_sequence (globals w) tok (tok :: rest) (VStr s) raw d in
  d !! "message"%string = Some (VStr s) →
  Str.split s = tok :: rest →
  guarded raw evs (normalized message w) →
  process_message message w
  = (replay evs;; process_parser raw) (normalized message w).
Proof.
  intros raw d evs Htext Hsplit Hguard. unfold process_message.
  pure_step. rewrite (bind_ok _ _ _ _ _ (alloc_run _ _)).
  pose proof (normalized_at_dispatch message w) as Hw.
  change (World _ _ _ _) with (normalized message w).
  fold raw d in Hw |- *.
  pure_step. destruct Hw as [Hg0 Hd0]. rewrite Hd0.
  pure_step. pure_step. rewrite Hsplit. pure_step. cbv zeta.
  pose proof (conj Hg0 Hd0 : at_dispatch (globals w) raw d (normalized message w)) as Hw.
  revert Hw Hguard. generalize (normalized message w). intros w0 Hw Hguard.
  unfold evs, gated_sequence in *.
  rewrite <- replay_app_then.
  apply (seq_gated _ _ _ _ _ _ _ _ _ Hw Hguard).
  { apply (command_function_step _ _ _ s _ rest Htext Hsplit). }
  clear dependent w0. intros w0 Hw Hguard.
  rewrite <- replay_app_then.
  apply (seq_gated _ _ _ _ _ _ _ _ _ Hw Hguard).
  { apply (command_parser_step _ _ _ s _ rest Htext Hsplit). }
  clear dependent w0. intros w0 Hw Hguard.
  rewrite <- replay_app_then.
  apply (seq_gated _ _ _ _ _ _ _ _ _ Hw Hguard).
  { apply (shell_command_step _ _ _ s _ Htext). }
  clear dependent w0. intros w0 Hw Hguard.
  apply bind_cong_at.
  apply (shell_alias_step _ _ _ s _ rest Htext Hsplit _ Hw).
Qed.

(** The same with the global parsers, when they too are guarded. *)
Lemma process_message_replay message w s tok rest :
  let raw := next_loc w in
  let d := get_notification_model (heap w message) in
  let evs := dispatch_sequence (globals w) tok (tok :: rest) (VStr s) raw d in
  d !! "message"%string = Some (VStr s) →
  Str.split s = tok :: rest →
  guarded raw evs (normalized message w) →
  process_message message w = replay evs (normalized message w).
Proof.
  intros raw d evs Htext Hsplit Hguard. unfold evs in *.
  rewrite dispatch_sequence_gated in Hguard |- *.
  pose proof Hguard as [Hgated Hparsers]%guarded_app.
  rewrite (process_message_gated _ _ _ _ _ Htext Hsplit Hgated).
  apply seq_replay; [done|]. intros Hres.
  destruct (guarded_final _ _ _ Hgated Hres) as [Hg Hd].
  destruct (normalized_at_dispatch message w) as [Hg0 Hd0].
  apply process_parser_replay; [|by apply Hparsers].
  split; [by rewrite Hg|by rewrite Hd].
Qed.

End dispatching.

(** ** Runs that nothing disturbs *)

Section clean_runs.
Context `{Handlers U} {OS : Subprocess U}.
Implicit Types (w : world U) (message : loc) (evs : list event).

(** A run in which every invocation returns makes them all. *)
Lemma undisturbed_run raw evs w :
  undisturbed raw evs w →
  guarded raw evs w
  ∧ res (replay evs w) = Ok tt
  ∧ trace (replay evs w) = evs.
Proof.
  revert w. induction evs as [|ev evs IH]; intros w; [done|].
  intros (Hres & Hg & Hd & Hrest).
  destruct (IH _ Hrest) as (Hguard & Hres' & Htrace).
  cbn [guarded replay]. unfold mbind, M_bind, bind. rewrite Hres. cbn [res trace].
  rewrite Hres', Htrace. split_and!; try done.
  destruct (replay1 ev w) as [r w' t] eqn:Hev. simpl in *.
  destruct ev as [f args kwargs|args shell]; simpl in Hev;
    unfold call, popen in Hev; by injection Hev as _ _ <-.
Qed.

Lemma undisturbed_app raw evs1 evs2 w :
  undisturbed raw (evs1 ++ evs2) w ↔
  undisturbed raw evs1 w ∧ undisturbed raw evs2 (final (replay evs1 w)).
Proof.
  revert w. induction evs1 as [|ev evs1 IH]; intros w.
  - simpl. intuition.
  - cbn [app undisturbed replay]. rewrite IH.
    unfold mbind, M_bind, bind.
    destruct (res (replay1 ev w)) as [[]|e]; cbn [final];
      [intuition|intuition congruence].
Qed.

(** Invocations that can be depended on make an undisturbed run. *)
Lemma undisturbed_dependable raw evs w :
  Forall (dependable raw) evs → undisturbed raw evs w.
Proof.
  revert w. induction evs as [|ev evs IH]; intros w Hevs; [done|].
  apply Forall_cons in Hevs as [Hev Hevs].
  destruct ev as [f args kwargs|args shell]; simpl in Hev |- *.
  - destruct Hev as (Hret & Hregs & Hdict).
    split_and!; [apply Hret|apply Hregs|apply Hdict|apply IH, Hevs].
  - split_and!; [apply Hev|done|done|apply IH, Hevs].
Qed.

(** A spawn request is out of reach of the registries and the record. *)
Lemma guarded_requests raw evs w : omap callee evs = [] → guarded raw evs w.
Proof.
  revert w. induction evs as [|ev evs IH]; intros w Hevs; [done|].
  destruct ev as [f args kwargs|args shell]; [done|]. csimpl in Hevs.
  simpl. destruct (spawn _ _ _).1; [|done]. split_and!; [done..|by apply IH].
Qed.

(** Handlers that are well behaved keep a run guarded, whatever becomes of
    the spawn requests. *)
Lemma guarded_well_behaved raw evs w :
  Forall (well_behaved raw) (omap callee evs) → guarded raw evs w.
Proof.
  revert w. induction evs as [|ev evs IH]; intros w Hevs; [done|].
  destruct ev as [f args kwargs|args shell]; csimpl in Hevs.
  - apply Forall_cons in Hevs as [(Hret & Hregs & Hdict) Hevs].
    simpl. rewrite (Hret args kwargs w).
    split_and!; [apply Hregs|apply Hdict|by apply IH].
  - simpl. destruct (spawn _ _ _).1; [|done]. split_and!; [done..|by apply IH].
Qed.

(** An undisturbed run followed by something else. *)
Lemma replay_undisturbed_then raw evs (k : M U unit) w :
  undisturbed raw evs w →
  let w' := final (replay evs w) in
  let o := (replay evs;; k) w in
  (res o = res (k w') ∧ final o = final (k w') ∧ trace o = evs ++ trace (k w'))
  ∧ at_dispatch (globals w) raw (heap w raw) w'.
Proof.
  intros (Hguard & Hres & Htrace)%undisturbed_run w' o. subst w' o.
  split.
  - unfold mbind, M_bind, bind. rewrite Hres, Htrace. done.
  - apply (guarded_final _ _ _ Hguard Hres).
Qed.

Lemma callees_shell_command_path g tok text :
  omap callee (shell_command_path g tok text) = [].
Proof. unfold shell_command_path. by case_decide. Qed.

Lemma callees_shell_alias_path g tok :
  omap callee (shell_alias_path g tok) = [].
Proof.
  unfold shell_alias_path.
  by destruct (SHELL_COMMAND_ALIASES_REGISTRY g !! tok).
Qed.

Lemma callees_gated_sequence g tok tokens text raw d :
  omap callee (gated_sequence g tok tokens text raw d)
  = option_list (COMMAND_FUNCTIONS_REGISTRY g !! tok)
      ++ option_list (COMMAND_PARSERS_REGISTRY g !! tok).
Proof.
  unfold gated_sequence. rewrite !omap_app.
  rewrite callees_shell_command_path, callees_shell_alias_path.
  rewrite !(right_id_L [] (++)).
  unfold command_function_path, command_parser_path.
  by destruct (COMMAND_FUNCTIONS_REGISTRY g !! tok),
    (COMMAND_PARSERS_REGISTRY g !! tok).
Qed.

Lemma callees_global_parsers_path g raw d :
  omap callee (global_parsers_path g raw d)
  = (ODictSpec.items (PARSERS_REGISTRY g)).*2.
Proof.
  unfold global_parsers_path.
  induction (ODictSpec.items (PARSERS_REGISTRY g)) as [|kv l IH]; csimpl; [done|].
  by rewrite IH.
Qed.

Lemma callees_dispatch_sequence g tok tokens text raw d :
  omap callee (dispatch_sequence g tok tokens text raw d) = handlers_for g tok.
Proof.
  rewrite dispatch_sequence_gated, omap_app, callees_gated_sequence,
    callees_global_parsers_path.
  unfold handlers_for. by rewrite <- (assoc_L (++)).
Qed.

(** [process_parser] spawns nothing, whatever the handlers do. *)
Lemma for_parser_in_spawns used len i raw w :
  spawns (trace (for_parser_in used len i raw w)) = [].
Proof.
  revert i w. induction len as [|len IH]; intros i w; simpl.
  - unfold_M. simpl. case_decide; [|done].
    by destruct (ODict.next _ i) as [[found k]|].
  - unfold_M. simpl. case_decide; [|done].
    destruct (ODict.next _ i) as [[found k]|]; [|done].
    destruct (ODict.get _ k) as [f|]; simpl; [|done].
    destruct (apply f _ _ w).1; simpl; [|done].
    exact (IH _ _).
Qed.

Lemma process_parser_spawns raw w :
  spawns (trace (process_parser raw w)) = [].
Proof.
  unfold process_parser. pure_step. apply for_parser_in_spawns.
Qed.

End clean_runs.

(** ** Runs that can be made again *)

Section retracing.
Context `{Handlers U} {OS : Subprocess U}.
Implicit Types (w : world U) (message : loc) (evs : list event).

Lemma retraceable_silent {A} (c : M U A) :
  (∀ w, final (c w) = w ∧ trace (c w) = []) → retraceable c.
Proof. intros Hc w. destruct (Hc w) as [Hw Ht]. simpl. by rewrite Ht, Hw. Qed.

Lemma bind_returned {A B} (c : M U A) (k : A → M U B) w a :
  res (c w) = Ok a →
  (c ≫= k) w
  = Outcome (res (k a (final (c w)))) (final (k a (final (c w))))
            (trace (c w) ++ trace (k a (final (c w)))).
Proof. intros Hres. unfold mbind, M_bind, bind. by rewrite Hres. Qed.

Lemma bind_raised {A B} (c : M U A) (k : A → M U B) w e :
  res (c w) = Raise e →
  (c ≫= k) w = Outcome (Raise e) (final (c w)) (trace (c w)).
Proof. intros Hres. unfold mbind, M_bind, bind. by rewrite Hres. Qed.

Lemma retraceable_bind {A B} (c : M U A) (k : A → M U B) :
  retraceable c → (∀ a, retraceable (k a)) → retraceable (c ≫= k).
Proof.
  intros Hc Hk w. destruct (Hc w) as (Ht & Hw & He). cbv zeta.
  destruct (res (c w)) as [a|e] eqn:Hres.
  - rewrite (bind_returned c k w a Hres). cbn [res final trace].
    rewrite replay_app.
    destruct (res (replay (trace (c w)) w)) as [[]|e] eqn:Hagain;
      [|by specialize (He e eq_refl)].
    rewrite (bind_returned _ _ w tt Hagain). cbn [res final trace].
    rewrite Ht, Hw.
    destruct (Hk a (final (c w))) as (Ht' & Hw' & He'). by rewrite Ht'.
  - rewrite (bind_raised c k w e Hres). cbn [res final trace].
    split_and!; [done..|]. intros e0 He0. by injection (He e0 He0) as ->.
Qed.

Lemma retraceable_call f args kwargs : retraceable (call f args kwargs).
Proof.
  intros w. cbv zeta. cbn [call trace]. rewrite replay_single. done.
Qed.

Lemma retraceable_popen args shell : retraceable (popen args shell).
Proof.
  intros w. cbv zeta. cbn [popen trace]. rewrite replay_single. done.
Qed.

Lemma retraceable_when (b : bool) (c : M U unit) :
  retraceable c → retraceable (when b c).
Proof. intros Hc. destruct b; [done|]. by apply retraceable_silent. Qed.

Lemma getitem_unchanged {V} (d : gmap string V) k w :
  final (getitem d k w) = w ∧ trace (getitem d k w) = [].
Proof. unfold getitem. by destruct (d !! k). Qed.

Lemma ogetitem_unchanged {V} (d : ODict.t V) k w :
  final (ogetitem d k w) = w ∧ trace (ogetitem d k w) = [].
Proof. unfold ogetitem. by destruct (ODict.get d k). Qed.

Lemma str_split_unchanged v w :
  final (str_split v w) = w ∧ trace (str_split v w) = [].
Proof. by destruct v. Qed.

Lemma index0_unchanged {A} (l : list A) w :
  final (index0 l w) = w ∧ trace (index0 l w) = [].
Proof. by destruct l. Qed.

(** Every step of the dispatch is one of these. *)
Local Ltac retrace_step :=
  first
    [ apply retraceable_bind; [|intros ?]
    | apply retraceable_when
    | apply retraceable_call
    | apply retraceable_popen
    | apply retraceable_silent; intros ?;
      first [ split; reflexivity | apply getitem_unchanged
            | apply ogetitem_unchanged | apply str_split_unchanged
            | apply index0_unchanged ] ].

Lemma retraceable_process_command_function raw :
  retraceable (process_command_function raw).
Proof. unfold process_command_function. repeat retrace_step. Qed.

Lemma retraceable_process_parser_command raw :
  retraceable (process_parser_command raw).
Proof. unfold process_parser_command. repeat retrace_step. Qed.

Lemma retraceable_process_shell_command raw :
  retraceable (process_shell_command raw).
Proof. unfold process_shell_command. repeat retrace_step. Qed.

Lemma retraceable_process_shell_alias raw :
  retraceable (process_shell_alias raw).
Proof. unfold process_shell_alias. repeat retrace_step. Qed.

Lemma retraceable_for_parser_in used len i raw :
  retraceable (for_parser_in used len i raw).
Proof.
  revert i. induction len as [|len IH]; intros i; simpl.
  - retrace_step; [retrace_step|]. case_decide; [|retrace_step].
    destruct (ODict.next _ i) as [[found k]|]; retrace_step.
  - retrace_step; [retrace_step|]. case_decide; [|retrace_step].
    destruct (ODict.next _ i) as [[found k]|]; [|retrace_step].
    do 3 (retrace_step; [retrace_step|]). apply IH.
Qed.

Lemma retraceable_process_parser raw : retraceable (process_parser raw).
Proof.
  unfold process_parser. retrace_step; [retrace_step|].
  apply retraceable_for_parser_in.
Qed.

(** Between the allocation of the record and the end of the dispatch the
    world changes through the invocations only. *)
Lemma process_message_retraceable message w :
  let o := process_message message w in
  let again := replay (trace o) (normalized message w) in
  trace again = trace o
  ∧ final again = final o
  ∧ ∀ e, res again = Raise e → res o = Raise e.
Proof.
  unfold process_message.
  pure_step. rewrite (bind_ok _ _ _ _ _ (alloc_run _ _)).
  change (World _ _ _ _) with (normalized message w).
  match goal with
  | |- context [?c (normalized message w)] =>
      lazymatch c with
      | replay _ => fail
      | _ => cut (retraceable c); [intros Hc; exact (Hc (normalized message w))|]
      end
  end.
  do 4 (retrace_step; [retrace_step|]). cbv zeta.
  retrace_step.
  { retrace_step; [retrace_step|].
    apply retraceable_when, retraceable_process_command_function. }
  retrace_step.
  { retrace_step; [retrace_step|].
    apply retraceable_when, retraceable_process_parser_command. }
  retrace_step.
  { retrace_step; [retrace_step|].
    apply retraceable_when, retraceable_process_shell_command. }
  retrace_step.
  { retrace_step; [retrace_step|].
    apply retraceable_when, retraceable_process_shell_alias. }
  apply retraceable_process_parser.
Qed.

(** An invocation of a retraced run that raises is the last one. *)
Lemma raising_invocation_is_last evs w before ev after e :
  trace (replay evs w) = evs →
  evs = before ++ ev :: after →
  res (replay1 ev (final (replay before w))) = Raise e →
  after = []
  ∧ res (replay before w) = Ok tt
  ∧ trace (replay before w) = before
  ∧ res (replay evs w) = Raise e
  ∧ final (replay evs w) = final (replay1 ev (final (replay before w))).
Proof.
  intros Htrace -> Hraise. revert Htrace.
  rewrite replay_app.
  pose proof (trace_replay_prefix before w) as [k Hk].
  destruct (res (replay before w)) as [[]|e'] eqn:Hres.
  - rewrite (bind_returned _ _ w tt Hres). cbn [res final trace replay].
    rewrite (bind_raised _ _ _ e Hraise). cbn [res final trace].
    assert (Hev : trace (replay1 ev (final (replay before w))) = [ev]).
    { destruct ev; reflexivity. }
    rewrite Hev. intros Heq.
    rewrite Hk in Heq at 2. rewrite <- (assoc_L (++)) in Heq.
    apply app_inv_head in Heq.
    assert (Hlen : length [ev] = length (k ++ ev :: after)) by (by rewrite <- Heq).
    rewrite length_app in Hlen. simpl in Hlen.
    destruct k; [|simpl in Hlen; lia]. destruct after; [|simpl in Hlen; lia].
    rewrite (right_id_L [] (++)) in Hk. done.
  - rewrite (bind_raised _ _ w e' Hres). cbn [res final trace]. intros Heq.
    assert (Hlen : length (trace (replay before w)) = length (before ++ ev :: after))
      by (by rewrite Heq).
    rewrite length_app in Hlen. simpl in Hlen.
    rewrite Hk in Hlen at 2. rewrite length_app in Hlen. lia.
Qed.

End retracing.

(** ** The dispatch entry point *)

Section process_message_facts.
Context `{Handlers U} {OS : Subprocess U}.
Implicit Types (w : world U) (message : loc).

(** The first thing [process_message] does with a message that has a first
    token is the command-function path. *)
Lemma process_message_first_path message w s tok rest :
  let raw := next_loc w in
  let d := get_notification_model (heap w message) in
  d !! "message"%string = Some (VStr s) →
  Str.split s = tok :: rest →
  ∃ k : M U unit,
    process_message message w
    = (replay (command_function_path (globals w) tok (tok :: rest) raw d);; k)
        (normalized message w).
Proof.
  intros raw d Htext Hsplit. eexists. unfold process_message.
  pure_step. rewrite (bind_ok _ _ _ _ _ (alloc_run _ _)).
  pose proof (normalized_at_dispatch message w) as Hw.
  change (World _ _ _ _) with (normalized message w).
  fold raw d in Hw |- *.
  pure_step. rewrite (proj2 Hw).
  pure_step. pure_step. rewrite Hsplit. pure_step. cbv zeta.
  apply bind_cong_at.
  apply (command_function_step _ _ _ s _ rest Htext Hsplit _ Hw).
Qed.

(** C1, amended: on an event whose message has a first token, and when every
    invocation of [dispatch_sequence], made in its turn, returns (no handler
    raises, [subprocess.Popen] raises on no request) and leaves the
    registries and the record as they were, [process_message] returns and
    makes exactly the invocations of [dispatch_sequence]: the command
    function registered for the token, the command parser registered for
    it, a spawn of the message if the token is a shell command, a spawn of
    the stored command line if it is an alias, then every global parser; a
    token that is in no registry gives the global parsers alone. *)
Theorem process_message_dispatch_order message w s tok rest :
  let raw := next_loc w in
  let d := get_notification_model (heap w message) in
  let g := globals w in
  let o := process_message message w in
  d !! "message"%string = Some (VStr s) →
  Str.split s = tok :: rest →
  undisturbed raw (dispatch_sequence g tok (tok :: rest) (VStr s) raw d)
              (normalized message w) →
  res o = Ok tt
  ∧ trace o = dispatch_sequence g tok (tok :: rest) (VStr s) raw d
  ∧ (COMMAND_FUNCTIONS_REGISTRY g !! tok = None →
     COMMAND_PARSERS_REGISTRY g !! tok = None →
     tok ∉ SHELL_COMMANDS_REGISTRY g →
     SHELL_COMMAND_ALIASES_REGISTRY g !! tok = None →
     trace o = global_parsers_path g raw d).
Proof.
  intros raw d g o Htext Hsplit (Hguard & Hres & Htrace)%undisturbed_run.
  assert (Ho : o = replay (dispatch_sequence g tok (tok :: rest) (VStr s) raw d)
                      (normalized message w))
    by (by apply process_message_replay).
  rewrite Ho. split_and!; [done..|].
  intros Hcf Hcp Hsc Hal. rewrite Htrace.
  unfold dispatch_sequence, command_function_path, command_parser_path,
    shell_command_path, shell_alias_path.
  rewrite Hcf, Hcp, Hal. by rewrite decide_False.
Qed.

(** C2: when the first token of the message is a key of
    [COMMAND_FUNCTIONS_REGISTRY], the first invocation of the dispatch is
    the handler stored under it, with the tokens of the whole message as
    positional arguments, the command word first, and with the keyword
    argument [raw_data] bound to the dict object that holds the normalized
    record. *)
Theorem command_function_arguments message w s tok rest f :
  let raw := next_loc w in
  let d := get_notification_model (heap w message) in
  d !! "message"%string = Some (VStr s) →
  Str.split s = tok :: rest →
  COMMAND_FUNCTIONS_REGISTRY (globals w) !! tok = Some f →
  heap (normalized message w) raw = d
  ∧ ∃ later,
      trace (process_message message w)
      = Call f (AStr <$> tok :: rest) [("raw_data"%string, ADict raw d)] :: later.
Proof.
  intros raw d Htext Hsplit Hf. split; [apply fn_lookup_insert|].
  destruct (process_message_first_path message w s tok rest Htext Hsplit)
    as [k ->].
  unfold command_function_path. fold raw d. rewrite Hf, (bind_cong_at _ _ _ _ (replay_single _ _)).
  unfold_M. simpl. destruct (apply f _ _ _).1; simpl; eauto.
Qed.

(** C8: when a handler that the dispatch calls raises, in the world that the
    invocations made before it have left, [process_message] ends with that
    exception: the call is the last invocation of the dispatch, and the world
    is the one the failing handler left, reached from what the earlier
    invocations did.  Nothing is asked of the handlers called before. *)
Theorem handler_failure_aborts_dispatch
    message w before f args kwargs after e :
  let o := process_message message w in
  let earlier := replay before (normalized message w) in
  trace o = before ++ Call f args kwargs :: after →
  (apply f args kwargs (final earlier)).1 = Raise e →
  res o = Raise e
  ∧ after = []
  ∧ final o = (apply f args kwargs (final earlier)).2
  ∧ res earlier = Ok tt
  ∧ trace earlier = before.
Proof.
  intros o earlier Htrace Hraise. subst earlier.
  destruct (process_message_retraceable message w) as (Ht & Hw & He).
  fold o in Ht, Hw, He.
  destruct (raising_invocation_is_last (trace o) (normalized message w)
              before (Call f args kwargs) after e Ht Htrace Hraise)
    as (Hafter & Hres & Hbefore & Hres' & Hfinal).
  split_and!; [by apply He|done| |done..].
  by rewrite <- Hw, Hfinal.
Qed.

End process_message_facts.

Module StrFacts.

Lemma flush_nil word : Str.flush word = [] ↔ word = EmptyString.
Proof. by destruct word. Qed.

Lemma split_go_nil word s :
  Str.split_go word s = [] ↔ word = EmptyString ∧ Str.blank s = true.
Proof.
  revert word. induction s as [|c s IH]; intros word; simpl.
  - rewrite flush_nil. intuition congruence.
  - destruct (Str.isspace c); simpl.
    + rewrite app_nil, flush_nil, IH. intuition congruence.
    + rewrite IH. intuition congruence.
Qed.

(** A string has no token exactly when it is empty or all whitespace. *)
Lemma split_nil s : Str.split s = [] ↔ Str.blank s = true.
Proof. unfold Str.split. rewrite split_go_nil. intuition congruence. Qed.

End StrFacts.

Section spawning.
Context `{Handlers U} {OS : Subprocess U}.
Implicit Types (w : world U) (message : loc).

Lemma spawns_app evs1 evs2 : spawns (evs1 ++ evs2) = spawns evs1 ++ spawns evs2.
Proof. apply filter_app. Qed.

Lemma spawns_command_function_path g tok tokens raw d :
  spawns (command_function_path g tok tokens raw d) = [].
Proof.
  unfold command_function_path.
  by destruct (COMMAND_FUNCTIONS_REGISTRY g !! tok).
Qed.

Lemma spawns_command_parser_path g tok raw d :
  spawns (command_parser_path g tok raw d) = [].
Proof.
  unfold command_parser_path.
  by destruct (COMMAND_PARSERS_REGISTRY g !! tok).
Qed.

Lemma spawns_shell_command_path g tok text :
  spawns (shell_command_path g tok text) = shell_command_path g tok text.
Proof. unfold shell_command_path. by case_decide. Qed.

Lemma spawns_shell_alias_path g tok :
  spawns (shell_alias_path g tok) = shell_alias_path g tok.
Proof.
  unfold shell_alias_path.
  by destruct (SHELL_COMMAND_ALIASES_REGISTRY g !! tok).
Qed.

(** A spawn request and what follows it: what follows is made when the
    request is taken, and only then. *)
Lemma request_then args (k : M U unit) w :
  let w' := final (popen args true w) in
  let o := (popen args true;; k) w in
  (∀ e, (spawn args true (user w)).1 = Raise e →
        o = Outcome (Raise e) w' [Popen args true])
  ∧ ((spawn args true (user w)).1 = Ok tt →
     o = Outcome (res (k w')) (final (k w')) (Popen args true :: trace (k w'))).
Proof.
  intros w' o. subst w' o. split.
  - intros e Hraise. by rewrite (bind_raised (popen args true) _ w e Hraise).
  - intros Hret. by rewrite (bind_returned (popen args true) _ w tt Hret).
Qed.

(** The alias path followed by the global parsers, from any world. *)
Lemma alias_then_parsers g tok raw w :
  let o := (replay (shell_alias_path g tok);; process_parser raw) w in
  ∃ parsers,
    trace o = shell_alias_path g tok ++ parsers
    ∧ spawns parsers = []
    ∧ ∀ command_line e,
        SHELL_COMMAND_ALIASES_REGISTRY g !! tok = Some command_line →
        (spawn command_line true (user w)).1 = Raise e →
        parsers = [] ∧ res o = Raise e.
Proof.
  intros o. subst o. unfold shell_alias_path.
  destruct (SHELL_COMMAND_ALIASES_REGISTRY g !! tok) as [command_line|].
  - rewrite (bind_cong_at _ _ _ _ (replay_single _ _)). cbn [replay1].
    destruct (request_then command_line (process_parser raw) w) as [Hraise Hret].
    destruct (spawn command_line true (user w)).1 as [[]|e] eqn:Hspawn.
    + rewrite (Hret eq_refl). cbn [res trace].
      eexists. split_and!; [done|apply process_parser_spawns|].
      intros ? ? [= <-]. congruence.
    + rewrite (Hraise e eq_refl). cbn [res trace].
      exists []. split_and!; [done..|].
      intros ? e' [= <-] Hspawn'. split; [done|]. congruence.
  - cbn [replay]. rewrite (bind_pure _ _ w tt eq_refl).
    eexists. split_and!; [done|apply process_parser_spawns|done].
Qed.

(** After gated paths that ran undisturbed, what is left of the gated paths
    are spawn requests; then come the global parsers. *)
Lemma process_message_after message w s tok rest evs1 evs2 :
  let raw := next_loc w in
  let d := get_notification_model (heap w message) in
  let o := process_message message w in
  let w1 := final (replay evs1 (normalized message w)) in
  let o' := (replay evs2;; process_parser raw) w1 in
  d !! "message"%string = Some (VStr s) →
  Str.split s = tok :: rest →
  gated_sequence (globals w) tok (tok :: rest) (VStr s) raw d = evs1 ++ evs2 →
  omap callee evs2 = [] →
  undisturbed raw evs1 (normalized message w) →
  res o = res o' ∧ final o = final o' ∧ trace o = evs1 ++ trace o'.
Proof.
  intros raw d o w1 o' Htext Hsplit Hseq Hrequests Hclean. subst o o' w1.
  assert (Hguard : guarded raw (evs1 ++ evs2) (normalized message w)).
  { apply guarded_app. split; [by apply undisturbed_run|].
    intros _. by apply guarded_requests. }
  rewrite <- Hseq in Hguard.
  rewrite (process_message_gated message w s tok rest Htext Hsplit Hguard).
  fold raw d. rewrite Hseq, <- replay_app_then.
  by destruct (replay_undisturbed_then raw evs1
                 (replay evs2;; process_parser raw) _ Hclean) as [? _].
Qed.

(** C4, amended: an event whose message is a string without any token
    (empty, or whitespace only) makes [process_message] raise [IndexError];
    an event without a message, or whose message is [None], makes it raise
    [AttributeError].  In both cases nothing is invoked, and all that
    happened is the allocation of the normalized record. *)
Theorem process_message_without_token message w :
  let o := process_message message w in
  (∀ s, heap w message !! "message"%string = Some (VStr s) →
        Str.blank s = true →
        res o = Raise IndexError ∧ trace o = []
        ∧ final o = normalized message w)
  ∧ (heap w message !! "message"%string = None
     ∨ heap w message !! "message"%string = Some VNone →
     res o = Raise AttributeError ∧ trace o = []
     ∧ final o = normalized message w).
Proof.
  intros o. subst o. split.
  - intros s Hs Hblank%StrFacts.split_nil.
    assert (Htext : get_notification_model (heap w message) !! "message"%string
                    = Some (VStr s)).
    { rewrite get_notification_model_lookup. unfold overlay_on_absent.
      by rewrite Hs. }
    unfold process_message.
    pure_step. rewrite (bind_ok _ _ _ _ _ (alloc_run _ _)).
    change (World _ _ _ _) with (normalized message w).
    pure_step. rewrite (proj2 (normalized_at_dispatch message w)).
    pure_step. pure_step. rewrite Hblank.
    by rewrite (bind_raise _ _ _ _ _ _ (index0_IndexError _)).
  - intros Hs.
    assert (Htext : get_notification_model (heap w message) !! "message"%string
                    = Some VNone).
    { rewrite get_notification_model_lookup. unfold overlay_on_absent.
      destruct Hs as [-> | ->]; [|done]. by rewrite decide_True by set_solver. }
    unfold process_message.
    pure_step. rewrite (bind_ok _ _ _ _ _ (alloc_run _ _)).
    change (World _ _ _ _) with (normalized message w).
    pure_step. rewrite (proj2 (normalized_at_dispatch message w)).
    pure_step.
    by rewrite (bind_raise _ _ _ _ _ _ (str_split_AttributeError VNone _ ltac:(done))).
Qed.

(** What the dispatch does from the alias path on, when the three paths
    before it ran undisturbed. *)
Lemma process_message_from_alias message w s tok rest command_line :
  let raw := next_loc w in
  let d := get_notification_model (heap w message) in
  let g := globals w in
  let o := process_message message w in
  let earlier := command_function_path g tok (tok :: rest) raw d
                   ++ command_parser_path g tok raw d
                   ++ shell_command_path g tok (VStr s) in
  let w3 := final (replay earlier (normalized message w)) in
  d !! "message"%string = Some (VStr s) →
  Str.split s = tok :: rest →
  SHELL_COMMAND_ALIASES_REGISTRY g !! tok = Some command_line →
  undisturbed raw earlier (normalized message w) →
  ∃ later,
    trace o = earlier ++ Popen command_line true :: later
    ∧ spawns later = []
    ∧ spawns (trace o)
      = shell_command_path g tok (VStr s) ++ [Popen command_line true]
    ∧ ∀ e, (spawn command_line true (user w3)).1 = Raise e →
           res o = Raise e ∧ later = [].
Proof.
  intros raw d g o earlier w3 Htext Hsplit Hal Hclean.
  assert (Hpath : shell_alias_path g tok = [Popen command_line true])
    by (unfold shell_alias_path; by rewrite Hal).
  destruct (process_message_after message w s tok rest
              earlier (shell_alias_path g tok) Htext Hsplit)
    as (Hres & _ & Htrace).
  { unfold gated_sequence, earlier. by rewrite <- !(assoc_L (++)). }
  { apply callees_shell_alias_path. }
  { done. }
  fold raw o w3 in Hres, Htrace.
  destruct (alias_then_parsers g tok raw w3) as (parsers & Htail & Hparsers & Hraise).
  rewrite Htail, Hpath in Htrace.
  exists parsers. split_and!; [done|done| |].
  - rewrite Htrace. unfold earlier.
    rewrite !spawns_app, spawns_command_function_path,
      spawns_command_parser_path, spawns_shell_command_path, Hparsers.
    done.
  - intros e Hspawn. destruct (Hraise command_line e Hal Hspawn) as [-> Hres'].
    split; [|done]. by rewrite Hres.
Qed.


(** What the dispatch does from the shell-command path on, when the two
    handler paths before it ran undisturbed. *)
Lemma process_message_from_shell_command message w s tok rest :
  let raw := next_loc w in
  let d := get_notification_model (heap w message) in
  let g := globals w in
  let o := process_message message w in
  let earlier := command_function_path g tok (tok :: rest) raw d
                   ++ command_parser_path g tok raw d in
  let w2 := final (replay earlier (normalized message w)) in
  d !! "message"%string = Some (VStr s) →
  Str.split s = tok :: rest →
  tok ∈ SHELL_COMMANDS_REGISTRY g →
  undisturbed raw earlier (normalized message w) →
  ∃ later,
    trace o = earlier ++ Popen (VStr s) true :: later
    ∧ (∃ more, spawns (trace o) = Popen (VStr s) true :: more
               ∧ more `prefix_of` shell_alias_path g tok)
    ∧ (∀ e, (spawn (VStr s) true (user w2)).1 = Raise e →
            res o = Raise e ∧ later = [])
    ∧ ((spawn (VStr s) true (user w2)).1 = Ok tt →
       ∃ parsers, later = shell_alias_path g tok ++ parsers
                  ∧ spawns parsers = []).
Proof.
  intros raw d g o earlier w2 Htext Hsplit Hin Hclean.
  assert (Hpath : shell_command_path g tok (VStr s) = [Popen (VStr s) true])
    by (unfold shell_command_path; by rewrite decide_True).
  destruct (process_message_after message w s tok rest
              earlier (Popen (VStr s) true :: shell_alias_path g tok)
              Htext Hsplit)
    as (Hres & _ & Htrace).
  { unfold gated_sequence, earlier. fold g. by rewrite Hpath, <- !(assoc_L (++)). }
  { csimpl. apply callees_shell_alias_path. }
  { done. }
  fold raw o w2 in Hres, Htrace.
  assert (Hearlier : spawns earlier = []).
  { unfold earlier. by rewrite spawns_app, spawns_command_function_path,
      spawns_command_parser_path. }
  cbn [replay] in Hres, Htrace.
  rewrite (bind_assoc_at (replay1 _) _ _) in Hres, Htrace. cbn [replay1] in Hres, Htrace.
  destruct (request_then (VStr s)
              (replay (shell_alias_path g tok);; process_parser raw) w2)
    as [Hraise Hret].
  destruct (spawn (VStr s) true (user w2)).1 as [[]|e] eqn:Hspawn.
  - rewrite (Hret eq_refl) in Hres, Htrace. cbn [res trace] in Hres, Htrace.
    destruct (alias_then_parsers g tok raw (final (popen (VStr s) true w2)))
      as (parsers & Htail & Hparsers & _).
    rewrite Htail in Htrace.
    exists (shell_alias_path g tok ++ parsers). split_and!; [done| |done|eauto].
    exists (shell_alias_path g tok). split; [|done].
    rewrite Htrace, spawns_app, Hearlier. cbn [app].
    change (Popen (VStr s) true :: shell_alias_path g tok ++ parsers)
      with ([Popen (VStr s) true] ++ shell_alias_path g tok ++ parsers).
    rewrite !spawns_app, spawns_shell_alias_path, Hparsers,
      (right_id_L [] (++)).
    done.
  - rewrite (Hraise e eq_refl) in Hres, Htrace. cbn [res trace] in Hres, Htrace.
    exists []. split_and!; [done| | |done].
    + exists []. split; [|apply prefix_nil].
      by rewrite Htrace, spawns_app, Hearlier.
    + intros e' [= <-]. by split.
Qed.


End spawning.

(** ** Registration *)

Module ODictSetFacts.

Lemma get_set_eq {V} (d : ODict.t V) k v : ODict.get (ODict.set d k v) k = Some v.
Proof.
  induction d as [|[[k' v']|] d IH]; simpl.
  - by rewrite decide_True.
  - case_decide as Hk; simpl.
    + by rewrite decide_True.
    + by rewrite decide_False.
  - done.
Qed.

Lemma get_set_ne {V} (d : ODict.t V) k k' v :
  k ≠ k' → ODict.get (ODict.set d k v) k' = ODict.get d k'.
Proof.
  intros Hne. induction d as [|[[k0 v0]|] d IH]; simpl.
  - by rewrite decide_False.
  - case_decide as Hk; simpl.
    + subst k0. by rewrite !decide_False.
    + by rewrite IH.
  - done.
Qed.

Lemma set_set {V} (d : ODict.t V) k v1 v2 :
  ODict.set (ODict.set d k v1) k v2 = ODict.set d k v2.
Proof.
  induction d as [|[[k' v']|] d IH]; simpl.
  - by rewrite decide_True.
  - case_decide as Hk; simpl.
    + by rewrite decide_True.
    + by rewrite decide_False, IH.
  - by rewrite IH.
Qed.

Lemma keys_set {V} (d : ODict.t V) k v :
  ODict.keys (ODict.set d k v)
  = if decide (k ∈ ODict.keys d) then ODict.keys d else ODict.keys d ++ [k].
Proof.
  unfold ODict.keys, ODict.entries. induction d as [|[[k' v']|] d IH]; csimpl.
  - done.
  - destruct (decide (k' = k)) as [->|Hne]; csimpl.
    + clear IH. rewrite decide_True; [done|]. apply elem_of_cons; auto.
    + rewrite IH. clear IH. destruct (decide (k ∈ (omap id d).*1)) as [Hin|Hin].
      * rewrite decide_True; [done|]. apply elem_of_cons; auto.
      * rewrite decide_False; [done|].
        intros [?|?]%elem_of_cons; congruence.
  - done.
Qed.

(** Registration keeps a dict free of repeated keys. *)
Lemma wf_set {V} (d : ODict.t V) k v :
  ODictSpec.wf d → ODictSpec.wf (ODict.set d k v).
Proof.
  unfold ODictSpec.wf. intros Hd. rewrite keys_set.
  case_decide as Hin; [done|].
  apply NoDup_app. split_and!; [done| |apply NoDup_singleton].
  intros k' Hk' [->|[]%elem_of_nil]%elem_of_cons. done.
Qed.

End ODictSetFacts.

Section registration_facts.
Context {U : Type}.
Implicit Types (w : world U) (g : registries).

Lemma dict_update_singleton {V} (m : gmap string V) k v :
  dict_update m {[ k := v ]} = <[ k := v ]> m.
Proof. unfold dict_update. by rewrite insert_union_singleton_l. Qed.

(** C9, amended: in each of the five registries, through the module-level
    function or decorator and through the method alike, registration under a
    name followed by registration under the same name leaves the second entry
    as what the name resolves to, and registering the same entry twice leaves
    what registering it once leaves.  The decorators and the methods always
    return.  The two module-level shell registrations register under the
    first token of the name they are given, and raise [IndexError],
    registering nothing, when the name has no token. *)
Theorem registration_last_wins (r : handler_registry) (h1 h2 : pyfunc)
    (name : string) (command_line1 command_line2 : pyval) w :
  __name__ h1 = __name__ h2 →
  let decorated := (decorator_of r h1;; decorator_of r h2) w in
  let added := (method_of r h1;; method_of r h2) w in
  let aliased := (add_shell_command_alias name command_line1;;
                  add_shell_command_alias name command_line2) w in
  ((res (decorator_of r h1 w) = Ok (Wraps h1) ∧ res (method_of r h1 w) = Ok tt)
   ∧ (res decorated = Ok (Wraps h2)
      ∧ resolve r (globals (final decorated)) (__name__ h1) = Some h2)
   ∧ (res added = Ok tt
      ∧ resolve r (globals (final added)) (__name__ h1) = Some h2)
   ∧ final ((decorator_of r h2;; decorator_of r h2) w) = final (decorator_of r h2 w)
   ∧ final ((method_of r h2;; method_of r h2) w) = final (method_of r h2 w))
  ∧ (res (add_shell_command_alias name command_line1 w) = Ok tt
     ∧ res aliased = Ok tt
     ∧ SHELL_COMMAND_ALIASES_REGISTRY (globals (final aliased)) !! name
       = Some command_line2
     ∧ final ((add_shell_command_alias name command_line2;;
               add_shell_command_alias name command_line2) w)
       = final (add_shell_command_alias name command_line2 w))
  ∧ (res (add_shell_command name w) = Ok tt
     ∧ name ∈ SHELL_COMMANDS_REGISTRY (globals (final (add_shell_command name w)))
     ∧ final ((add_shell_command name;; add_shell_command name) w)
       = final (add_shell_command name w))
  ∧ match Str.split name with
    | tok :: _ =>
        let registered := (register_shell_command_alias name command_line1;;
                           register_shell_command_alias name command_line2) w in
        (res registered = Ok tt
         ∧ SHELL_COMMAND_ALIASES_REGISTRY (globals (final registered)) !! tok
           = Some command_line2
         ∧ final ((register_shell_command_alias name command_line2;;
                   register_shell_command_alias name command_line2) w)
           = final (register_shell_command_alias name command_line2 w))
        ∧ (res (register_shell_command name w) = Ok tt
           ∧ tok ∈ SHELL_COMMANDS_REGISTRY
                     (globals (final (register_shell_command name w)))
           ∧ final ((register_shell_command name;; register_shell_command name) w)
             = final (register_shell_command name w))
    | [] =>
        register_shell_command_alias name command_line1 w
        = Outcome (Raise IndexError) w []
        ∧ register_shell_command name w = Outcome (Raise IndexError) w []
    end.
Proof.
  intros Hname decorated added aliased. subst decorated added aliased.
  split; [|split; [|split]].
  - destruct r; simpl;
      unfold register_command, register_command_parser, register_parser,
        add_command_function, add_command_parser, add_parser;
      unfold_M; simpl; rewrite ?dict_update_singleton, ?Hname.
    + split_and!; try done.
      * apply lookup_insert_eq.
      * apply lookup_insert_eq.
      * unfold with_COMMAND_FUNCTIONS. simpl. by rewrite insert_insert_eq.
      * unfold with_COMMAND_FUNCTIONS. simpl. by rewrite insert_insert_eq.
    + split_and!; try done.
      * apply lookup_insert_eq.
      * apply lookup_insert_eq.
      * unfold with_COMMAND_PARSERS. simpl. by rewrite insert_insert_eq.
      * unfold with_COMMAND_PARSERS. simpl. by rewrite insert_insert_eq.
    + split_and!; try done.
      * apply ODictSetFacts.get_set_eq.
      * apply ODictSetFacts.get_set_eq.
      * unfold with_PARSERS. simpl. by rewrite ODictSetFacts.set_set.
      * unfold with_PARSERS. simpl. by rewrite ODictSetFacts.set_set.
  - unfold add_shell_command_alias. unfold_M. simpl.
    rewrite !dict_update_singleton. split_and!; try done.
    + apply lookup_insert_eq.
    + unfold with_SHELL_COMMAND_ALIASES. simpl. by rewrite insert_insert_eq.
  - unfold add_shell_command. unfold_M. simpl. split_and!; try done.
    + apply elem_of_union_l, elem_of_singleton. done.
    + unfold with_SHELL_COMMANDS. simpl.
      by rewrite (assoc_L (∪)), (idemp_L (∪)).
  - unfold register_shell_command_alias, register_shell_command.
    destruct (Str.split name) as [|tok rest]; [done|].
    unfold_M. simpl. rewrite !dict_update_singleton. split_and!; try done.
    + apply lookup_insert_eq.
    + unfold with_SHELL_COMMAND_ALIASES. simpl. by rewrite insert_insert_eq.
    + apply elem_of_union_l, elem_of_singleton. done.
    + unfold with_SHELL_COMMANDS. simpl.
      by rewrite (assoc_L (∪)), (idemp_L (∪)).
Qed.

End registration_facts.

(** ** Shell triggers *)

Module SplitFacts.

Lemma has_space_rev_app s1 s2 :
  Str.has_space (String.rev_app s1 s2) = Str.has_space s1 || Str.has_space s2.
Proof.
  revert s2. induction s1 as [|c s1 IH]; intros s2; simpl; [done|].
  rewrite IH. simpl. by destruct (Str.isspace c), (Str.has_space s1).
Qed.

Lemma has_space_rev s : Str.has_space (String.rev s) = Str.has_space s.
Proof.
  unfold String.rev. rewrite has_space_rev_app. simpl.
  by rewrite orb_false_r.
Qed.

Lemma split_go_no_space word s :
  Str.has_space word = false →
  Forall (λ t, Str.has_space t = false) (Str.split_go word s).
Proof.
  revert word. induction s as [|c s IH]; intros word Hword; simpl.
  - destruct word; simpl; [done|].
    apply Forall_singleton. by rewrite has_space_rev.
  - destruct (Str.isspace c) eqn:Hc.
    + apply Forall_app. split; [|by apply IH].
      destruct word; simpl; [done|].
      apply Forall_singleton. by rewrite has_space_rev.
    + apply IH. simpl. by rewrite Hc.
Qed.

(** No token of [s.split()] has whitespace in it. *)
Lemma split_no_space s : Forall (λ t, Str.has_space t = false) (Str.split s).
Proof. by apply split_go_no_space. Qed.

End SplitFacts.

Section shell_triggers.
Context {U : Type}.
Implicit Types (w : world U).

(** The module-level function stores the first token of its input. *)
Lemma register_shell_command_stores_first_token command tok rest w :
  Str.split command = tok :: rest →
  register_shell_command command w
  = Outcome (Ok tt)
      (World (with_SHELL_COMMANDS ({[ tok ]} ∪ SHELL_COMMANDS_REGISTRY (globals w))
                                  (globals w))
             (heap w) (next_loc w) (user w))
      [].
Proof. intros Hsplit. unfold register_shell_command. rewrite Hsplit. by pure_step. Qed.

(** It raises on an input without a token. *)
Lemma register_shell_command_blank command w :
  Str.blank command = true →
  register_shell_command command w = Outcome (Raise IndexError) w [].
Proof.
  intros Hblank%StrFacts.split_nil. unfold register_shell_command.
  rewrite Hblank. by rewrite (bind_raise _ _ _ _ _ _ (index0_IndexError _)).
Qed.

(** The method stores its input as it is. *)
Lemma add_shell_command_stores_input command w :
  add_shell_command command w
  = Outcome (Ok tt)
      (World (with_SHELL_COMMANDS ({[ command ]} ∪ SHELL_COMMANDS_REGISTRY (globals w))
                                  (globals w))
             (heap w) (next_loc w) (user w))
      [].
Proof. done. Qed.

(** A trigger with whitespace in it is the first token of no message. *)
Lemma trigger_with_space_never_matches command s tok rest :
  Str.has_space command = true → Str.split s = tok :: rest → tok ≠ command.
Proof.
  intros Hcommand Hsplit ->.
  pose proof (SplitFacts.split_no_space s) as Htokens.
  rewrite Hsplit in Htokens. apply Forall_cons in Htokens as [Htok _].
  congruence.
Qed.

End shell_triggers.

(** C5, where the code departs from it: registered through the method, the
    command ["ls -la"] is stored whole, not as its first token ["ls"], which
    is what the module-level function stores; stored whole it is the first
    token of no message, and the message ["ls -la"] itself spawns nothing. *)
Theorem add_shell_command_keeps_whole_string :
  Str.split "ls -la" = ["ls"; "-la"]%string
  ∧ SHELL_COMMANDS_REGISTRY (globals ls_added_world) = {[ "ls -la"%string ]}
  ∧ SHELL_COMMANDS_REGISTRY (globals ls_registered_world) = {[ "ls"%string ]}
  ∧ trace (process_message (H := inert) (OS := obliging) 0 ls_added_world) = []
  ∧ trace (process_message (H := inert) (OS := obliging) 0 ls_registered_world)
    = [Popen (VStr "ls -la") true].
Proof. split_and!; vm_compute; reflexivity. Qed.

(** ** What dispatch leaves alone *)

Section frame.
Context `{Handlers U} {OS : Subprocess U}.
Context (g : registries) (message : loc) (m : pydict).
Context (Hkeep : ∀ f, registered g f →
                      keeps_registries f ∧ keeps_unhanded message f).
Implicit Types (w : world U).

Local Abbreviation keeps := (keeps_frame (U:=U) g message m).

Lemma keeps_bind {A B} (c : M U A) (k : A → M U B) Q R :
  keeps c Q → (∀ a, Q a → keeps (k a) R) → keeps (c ≫= k) R.
Proof.
  intros Hc Hk w Hw. destruct (Hc w Hw) as [Hw' HQ].
  unfold_M. destruct (res (c w)) as [a|e] eqn:Hres; simpl; [|done].
  by apply (Hk a (HQ a eq_refl)).
Qed.

Lemma keeps_weaken {A} (c : M U A) (Q R : A → Prop) :
  keeps c Q → (∀ a, Q a → R a) → keeps c R.
Proof. intros Hc HQR w Hw. destruct (Hc w Hw) as [? HQ]. eauto. Qed.

Lemma keeps_ret {A} (a : A) (Q : A → Prop) : Q a → keeps (mret a : M U A) Q.
Proof. intros HQ w Hw. split; [done|]. by intros ? [= <-]. Qed.

Lemma keeps_raise {A} e (Q : A → Prop) : keeps (raise e) Q.
Proof. intros w Hw. by split. Qed.

Lemma keeps_get_globals : keeps get_globals (λ g', g' = g).
Proof. intros w Hw. split; [done|]. intros ? [= <-]. apply Hw. Qed.

Lemma keeps_deref l : keeps (deref l) (λ _, True).
Proof. intros w Hw. by split. Qed.

Lemma keeps_getitem {V} (d : gmap string V) k :
  keeps (getitem d k) (λ v, d !! k = Some v).
Proof.
  intros w Hw. unfold getitem. destruct (d !! k); split; try done.
  by intros ? [= <-].
Qed.

Lemma keeps_ogetitem {V} (d : ODict.t V) k :
  keeps (ogetitem d k) (λ v, ODict.get d k = Some v).
Proof.
  intros w Hw. unfold ogetitem. destruct (ODict.get d k); split; try done.
  by intros ? [= <-].
Qed.

Lemma keeps_str_split v : keeps (str_split v) (λ _, True).
Proof. intros w Hw. by destruct v. Qed.

Lemma keeps_index0 {A} (l : list A) : keeps (index0 l) (λ _, True).
Proof. intros w Hw. by destruct l. Qed.

Lemma keeps_popen args shell : keeps (popen args shell) (λ _, True).
Proof. intros w Hw. by split. Qed.

Lemma keeps_when (b : bool) (c : M U unit) :
  keeps c (λ _, True) → keeps (when b c) (λ _, True).
Proof. intros Hc. destruct b; [done|]. by apply keeps_ret. Qed.

Lemma keeps_call f args kwargs :
  registered g f → message ∉ addresses args kwargs →
  keeps (call f args kwargs) (λ _, True).
Proof.
  intros [Hregs Hdict]%Hkeep Hargs w [Hg Hm]. split; [|done]. split; simpl.
  - by rewrite Hregs.
  - by rewrite Hdict.
Qed.

Lemma addresses_tokens (tokens : list string) raw d :
  addresses (AStr <$> tokens) [("raw_data"%string, ADict raw d)] = [raw].
Proof.
  unfold addresses. rewrite omap_app.
  by induction tokens as [|t tokens IH].
Qed.

Lemma not_handed raw : raw ≠ message → message ∉ [raw].
Proof. intros Hne [->|[]%elem_of_nil]%elem_of_cons. done. Qed.

Lemma keeps_process_command_function raw :
  raw ≠ message → keeps (process_command_function raw) (λ _, True).
Proof.
  intros Hraw. unfold process_command_function.
  eapply keeps_bind; [apply keeps_deref|]. intros d _.
  eapply keeps_bind; [apply keeps_getitem|]. intros text _.
  eapply keeps_bind; [apply keeps_str_split|]. intros arguments _.
  eapply keeps_bind; [apply keeps_index0|]. intros command _.
  eapply keeps_bind; [apply keeps_get_globals|]. intros g' ->.
  eapply keeps_bind; [apply keeps_getitem|]. intros f Hf.
  eapply keeps_bind; [apply keeps_deref|]. intros d' _.
  apply keeps_call; [left; by exists command|].
  rewrite addresses_tokens. by apply not_handed.
Qed.

Lemma keeps_process_parser_command raw :
  raw ≠ message → keeps (process_parser_command raw) (λ _, True).
Proof.
  intros Hraw. unfold process_parser_command.
  eapply keeps_bind; [apply keeps_deref|]. intros d _.
  eapply keeps_bind; [apply keeps_getitem|]. intros text _.
  eapply keeps_bind; [apply keeps_str_split|]. intros arguments _.
  eapply keeps_bind; [apply keeps_index0|]. intros command _.
  eapply keeps_bind; [apply keeps_get_globals|]. intros g' ->.
  eapply keeps_bind; [apply keeps_getitem|]. intros f Hf.
  eapply keeps_bind; [apply keeps_deref|]. intros d' _.
  apply keeps_call; [right; left; by exists command|by apply not_handed].
Qed.

Lemma keeps_process_shell_command raw :
  raw ≠ message → keeps (process_shell_command raw) (λ _, True).
Proof.
  intros Hraw. unfold process_shell_command.
  eapply keeps_bind; [apply keeps_deref|]. intros d _.
  eapply keeps_bind; [apply keeps_getitem|]. intros text _.
  apply keeps_popen.
Qed.

Lemma keeps_process_shell_alias raw :
  raw ≠ message → keeps (process_shell_alias raw) (λ _, True).
Proof.
  intros Hraw. unfold process_shell_alias.
  eapply keeps_bind; [apply keeps_deref|]. intros d _.
  eapply keeps_bind; [apply keeps_getitem|]. intros text _.
  eapply keeps_bind; [apply keeps_str_split|]. intros arguments _.
  eapply keeps_bind; [apply keeps_index0|]. intros alias _.
  eapply keeps_bind; [apply keeps_get_globals|]. intros g' ->.
  eapply keeps_bind; [apply keeps_getitem|]. intros command_line _.
  apply keeps_popen.
Qed.

Lemma keeps_for_parser_in used len i raw :
  raw ≠ message → keeps (for_parser_in used len i raw) (λ _, True).
Proof.
  intros Hraw. revert i. induction len as [|len IH]; intros i; simpl.
  - eapply keeps_bind; [apply keeps_get_globals|]. intros g' ->.
    case_decide; [|apply keeps_raise].
    destruct (ODict.next _ i) as [[found k]|]; [apply keeps_raise|by apply keeps_ret].
  - eapply keeps_bind; [apply keeps_get_globals|]. intros g' ->.
    case_decide; [|apply keeps_raise].
    destruct (ODict.next _ i) as [[found k]|]; [|by apply keeps_ret].
    eapply keeps_bind; [apply keeps_ogetitem|]. intros f Hf.
    eapply keeps_bind; [apply keeps_deref|]. intros d _.
    eapply keeps_bind; [|intros _ _; apply IH].
    apply keeps_call; [right; right; by exists k|by apply not_handed].
Qed.

Lemma keeps_process_parser raw :
  raw ≠ message → keeps (process_parser raw) (λ _, True).
Proof.
  intros Hraw. unfold process_parser.
  eapply keeps_bind; [apply keeps_get_globals|]. intros g' ->.
  by apply keeps_for_parser_in.
Qed.

End frame.

Section frame_of_dispatch.
Context `{Handlers U} {OS : Subprocess U}.
Implicit Types (w : world U).


End frame_of_dispatch.

(** * The properties on the sample application *)

Section sample_application.
#[local] Existing Instance sample_handlers.
#[local] Existing Instance sample_subprocess.

Lemma scribble_unhanded (handed : list pyarg) (h : loc → pydict) (l : loc) :
  l ∉ omap address handed → scribble handed h l = h l.
Proof.
  induction handed as [|[s|l' d] handed IH]; csimpl; [done|by apply IH|].
  intros [Hne Hl]%not_elem_of_cons.
  rewrite fn_lookup_insert_ne by done. by apply IH.
Qed.

(** Every sample handler leaves the registries alone and writes to no
    dict but those it is handed. *)
Lemma sample_handlers_confined (f : pyfunc) (l : loc) :
  keeps_registries f ∧ keeps_unhanded l f.
Proof.
  induction f as [name code|f IH]; [|done].
  split.
  - intros args kwargs w. simpl. unfold body, sample_handlers.
    by repeat case_decide.
  - intros args kwargs w Hl. simpl. unfold body, sample_handlers.
    repeat case_decide; simpl; [done| |done].
    by apply scribble_unhanded.
Qed.

(** The counting handlers are well behaved. *)
Lemma sample_handlers_well_behaved (raw : loc) (name : string) (code : nat) :
  code ≠ 13 → code ≠ 7 → well_behaved raw (Def name code).
Proof.
  intros H13 H7. split_and!; intros args kwargs w; simpl;
    unfold body, sample_handlers; by rewrite !decide_False.
Qed.

Local Ltac evaluate := vm_compute; reflexivity.

(** Calls of counting handlers and requests without a NUL character can be
    depended on. *)
Local Ltac dependable_sample :=
  repeat (apply Forall_cons; split;
          [first [ apply sample_handlers_well_behaved; lia
                 | intros ?; reflexivity ]|]);
  apply Forall_nil_2.

Lemma process_message_dispatch_order_witness :
  let o := process_message 0 reboot_world in
  let d := get_notification_model (heap reboot_world 0) in
  res o = Ok tt
  ∧ trace o
    = [ Call (Def "reboot" 1) [AStr "reboot"; AStr "now"]
             [("raw_data"%string, ADict 1 d)];
        Call (Def "reboot" 2) [ADict 1 d] [];
        Popen (VStr "reboot now") true;
        Popen (VList ["systemctl"; "reboot"]%string) true;
        Call (Def "log" 3) [ADict 1 d] [];
        Call (Def "forward" 4) [ADict 1 d] [] ].
Proof.
  intros o d.
  assert (Hsequence :
            dispatch_sequence (globals reboot_world) "reboot"
              ["reboot"; "now"]%string (VStr "reboot now") 1 d
            = [ Call (Def "reboot" 1) [AStr "reboot"; AStr "now"]
                     [("raw_data"%string, ADict 1 d)];
                Call (Def "reboot" 2) [ADict 1 d] [];
                Popen (VStr "reboot now") true;
                Popen (VList ["systemctl"; "reboot"]%string) true;
                Call (Def "log" 3) [ADict 1 d] [];
                Call (Def "forward" 4) [ADict 1 d] [] ])
    by evaluate.
  destruct (process_message_dispatch_order 0 reboot_world
              "reboot now" "reboot" ["now"%string]) as (Hres & Htrace & _).
  - evaluate.
  - evaluate.
  - apply undisturbed_dependable.
    change (next_loc reboot_world) with 1.
    change (get_notification_model (heap reboot_world 0)) with d.
    rewrite Hsequence. dependable_sample.
  - split; [exact Hres|]. etrans; [exact Htrace|]. exact Hsequence.
Defined.

(** C1 as it is stated fails on a message that is not empty but has no
    token: one space.  The dispatch raises and calls neither of the two
    global parsers. *)
Lemma process_message_blank_counterexample :
  let o := process_message 0 blank_message_world in
  get_notification_model (heap blank_message_world 0) !! "message"%string
    = Some (VStr " ")
  ∧ " "%string ≠ ""%string
  ∧ ODict.keys (PARSERS_REGISTRY (globals blank_message_world))
    = ["log"; "forward"]%string
  ∧ res o = Raise IndexError
  ∧ trace o = [].
Proof. split_and!; first [evaluate|done]. Qed.

Lemma command_function_arguments_witness :
  let d := get_notification_model (heap reboot_world 0) in
  heap (normalized 0 reboot_world) 1 = d
  ∧ ∃ later,
      trace (process_message 0 reboot_world)
      = Call (Def "reboot" 1) [AStr "reboot"; AStr "now"]
             [("raw_data"%string, ADict 1 d)] :: later.
Proof.
  intros d.
  apply (command_function_arguments 0 reboot_world
           "reboot now" "reboot" ["now"%string] (Def "reboot" 1));
    evaluate.
Defined.

Lemma process_message_without_token_witness :
  (res (process_message 0 blank_message_world) = Raise IndexError
   ∧ trace (process_message 0 blank_message_world) = [])
  ∧ (res (process_message 0 no_message_world) = Raise AttributeError
     ∧ trace (process_message 0 no_message_world) = []).
Proof.
  split.
  - destruct (proj1 (process_message_without_token 0 blank_message_world) " ")
      as (Hres & Htrace & _); [evaluate..|]. by split.
  - destruct (proj2 (process_message_without_token 0 no_message_world))
      as (Hres & Htrace & _); [left; evaluate|]. by split.
Defined.

(** C4 as it is stated fails on an event without a message: the exception
    is [AttributeError], not [IndexError]. *)
Lemma process_message_absent_counterexample :
  heap no_message_world 0 !! "message"%string = None
  ∧ res (process_message 0 no_message_world) = Raise AttributeError
  ∧ res (process_message 0 no_message_world) ≠ Raise IndexError.
Proof.
  assert (Hres : res (process_message 0 no_message_world) = Raise AttributeError)
    by evaluate.
  split_and!; [evaluate|done|by rewrite Hres].
Qed.





Lemma handler_failure_aborts_dispatch_witness :
  let d := get_notification_model (heap failing_world 0) in
  let o := process_message 0 failing_world in
  res o = Raise (Exception "deploy")
  ∧ trace o
    = [ Call (Def "deploy" 1) [AStr "deploy"; AStr "prod"]
             [("raw_data"%string, ADict 1 d)];
        Call (Def "deploy" 13) [ADict 1 d] [] ]
  ∧ user (final o) = 1.
Proof.
  intros d o.
  assert (Htrace : trace o
                   = [ Call (Def "deploy" 1) [AStr "deploy"; AStr "prod"]
                            [("raw_data"%string, ADict 1 d)] ]
                     ++ Call (Def "deploy" 13) [ADict 1 d] [] :: [])
    by evaluate.
  destruct (handler_failure_aborts_dispatch 0 failing_world
              [Call (Def "deploy" 1) [AStr "deploy"; AStr "prod"]
                    [("raw_data"%string, ADict 1 d)]]
              (Def "deploy" 13) [ADict 1 d] [] [] (Exception "deploy"))
    as (Hres & _ & Hfinal & _ & _).
  - exact Htrace.
  - evaluate.
  - split_and!; [exact Hres|exact Htrace|].
    fold o in Hfinal. rewrite Hfinal. evaluate.
Defined.

Lemma registration_last_wins_witness :
  resolve CommandFunctions
    (globals (final ((add_command_function (Def "reboot" 1);;
                      add_command_function (Def "reboot" 2))
                       (world_with empty_registries ∅ 0))))
    "reboot"
  = Some (Def "reboot" 2)
  ∧ SHELL_COMMAND_ALIASES_REGISTRY
      (globals (final ((register_shell_command_alias "deploy prod" (VStr "make prod");;
                        register_shell_command_alias "deploy prod" (VStr "make all"))
                         (world_with empty_registries ∅ 0))))
    !! "deploy"%string
    = Some (VStr "make all").
Proof.
  destruct (registration_last_wins CommandFunctions
              (Def "reboot" 1) (Def "reboot" 2)
              "deploy prod" (VStr "make prod") (VStr "make all")
              (world_with empty_registries ∅ 0))
    as ((_ & _ & [_ Hadded] & _) & _ & _ & Hfunctions); [reflexivity|].
  split; [exact Hadded|].
  change (Str.split "deploy prod") with ["deploy"; "prod"]%string in Hfunctions.
  destruct Hfunctions as ((_ & Halias & _) & _). exact Halias.
Defined.

(** C9 as it is stated fails on a name without a token: the module-level
    shell registrations raise [IndexError]. *)
Lemma registration_blank_name_counterexample :
  res (register_shell_command "" (world_with empty_registries ∅ 0))
  = Raise IndexError
  ∧ res (register_shell_command_alias " " (VStr "ls")
           (world_with empty_registries ∅ 0))
    = Raise IndexError.
Proof. split; evaluate. Qed.


End sample_application.

(** * Further properties of the code *)

(** ** The normalizer, again *)

(** X1: normalizing a record that is already normalized changes nothing. *)
Theorem get_notification_model_idempotent (kwargs : pydict) :
  get_notification_model (get_notification_model kwargs)
  = get_notification_model kwargs.
Proof.
  apply map_eq. intros k. rewrite get_notification_model_lookup.
  unfold overlay_on_absent at 1. rewrite get_notification_model_lookup.
  unfold overlay_on_absent. destruct (kwargs !! k); [done|].
  by case_decide.
Qed.

(** X2: for a canonical field, an input that binds it to [None] and an input
    that leaves it out are normalized to the same record. *)
Theorem get_notification_model_None_is_absent (kwargs : pydict) (F : string) :
  F ∈ canonical_fields →
  get_notification_model (<[ F := VNone ]> kwargs)
  = get_notification_model (delete F kwargs).
Proof.
  intros HF. apply map_eq. intros k. rewrite !get_notification_model_lookup.
  unfold overlay_on_absent. destruct (decide (k = F)) as [->|Hne].
  - rewrite lookup_insert_eq, lookup_delete_eq. by rewrite decide_True.
  - by rewrite lookup_insert_ne, lookup_delete_ne.
Qed.

Lemma get_notification_model_None_is_absent_witness :
  get_notification_model {[ "title"%string := VNone; "message"%string := VStr "hi" ]}
  = get_notification_model {[ "message"%string := VStr "hi" ]}.
Proof.
  etrans; [apply (get_notification_model_None_is_absent
                    {[ "message"%string := VStr "hi" ]} "title")|].
  - apply (bool_decide_unpack _). vm_compute. exact I.
  - apply (bool_decide_unpack _). vm_compute. exact I.
Defined.

(** ** Registration, again *)

Section registration_more.
Context `{Handlers U} {OS : Subprocess U}.
Implicit Types (w : world U).

Lemma register_shell_command_alias_run alias tok rest command_line w :
  Str.split alias = tok :: rest →
  register_shell_command_alias alias command_line w
  = Outcome (Ok tt)
      (World (with_SHELL_COMMAND_ALIASES
                (<[ tok := command_line ]> (SHELL_COMMAND_ALIASES_REGISTRY (globals w)))
                (globals w))
             (heap w) (next_loc w) (user w))
      [].
Proof.
  intros Hsplit. unfold register_shell_command_alias. rewrite Hsplit.
  pure_step. unfold modify_globals. by rewrite dict_update_singleton.
Qed.

(** X3: a command line registered with [register_shell_command] is asked
    for when it comes back as a message: if the calls of the two handler
    paths return and leave the registries and the record as they were, the
    first spawn request of the dispatch is that very text, whether or not
    [subprocess.Popen] then raises; the only other request there can be is
    the one of the alias path. *)
Theorem registered_command_line_is_spawned command tok rest message w :
  let g := globals w in
  let w' := final (register_shell_command command w) in
  let raw := next_loc w in
  let d := get_notification_model (heap w message) in
  let earlier := command_function_path g tok (tok :: rest) raw d
                   ++ command_parser_path g tok raw d in
  Str.split command = tok :: rest →
  heap w message !! "message"%string = Some (VStr command) →
  undisturbed raw earlier (normalized message w') →
  ∃ more,
    spawns (trace (process_message message w'))
    = Popen (VStr command) true :: more
    ∧ more `prefix_of` shell_alias_path g tok.
Proof.
  intros g w' raw d earlier Hsplit Hmessage. subst w'.
  rewrite (register_shell_command_stores_first_token command tok rest w Hsplit).
  cbn [final].
  match goal with |- context [process_message message ?w1] => set (w' := w1) end.
  intros Hclean.
  assert (Htext : get_notification_model (heap w' message) !! "message"%string
                  = Some (VStr command)).
  { rewrite get_notification_model_lookup. unfold overlay_on_absent. simpl.
    by rewrite Hmessage. }
  destruct (process_message_from_shell_command message w' command tok rest
              Htext Hsplit)
    as (later & _ & Hspawns & _).
  - simpl. apply elem_of_union_l, elem_of_singleton. done.
  - exact Hclean.
  - exact Hspawns.
Qed.

(** X4: a name without any token (empty, or whitespace only) makes
    [register_shell_command] and [register_shell_command_alias] raise
    [IndexError]; nothing is registered. *)
Theorem shell_registration_blank_name name command_line w :
  Str.blank name = true →
  register_shell_command name w = Outcome (Raise IndexError) w []
  ∧ register_shell_command_alias name command_line w
    = Outcome (Raise IndexError) w [].
Proof.
  intros Hblank. split; [by apply register_shell_command_blank|].
  apply StrFacts.split_nil in Hblank. unfold register_shell_command_alias.
  rewrite Hblank. by rewrite (bind_raise _ _ _ _ _ _ (index0_IndexError _)).
Qed.

(** X5: an alias registered with [register_shell_command_alias] is asked
    for when a message begins with its first word: if the invocations of the
    three paths before the alias path return and leave the registries and
    the record as they were, the spawn requests of the dispatch are the one
    for the message, if the word is a shell command too, and then the one for
    the command line that was registered. *)
Theorem registered_alias_is_spawned
    alias tok rest command_line s rest' message w :
  let g := globals w in
  let w' := final (register_shell_command_alias alias command_line w) in
  let raw := next_loc w in
  let d := get_notification_model (heap w message) in
  let earlier := command_function_path g tok (tok :: rest') raw d
                   ++ command_parser_path g tok raw d
                   ++ shell_command_path g tok (VStr s) in
  Str.split alias = tok :: rest →
  heap w message !! "message"%string = Some (VStr s) →
  Str.split s = tok :: rest' →
  undisturbed raw earlier (normalized message w') →
  spawns (trace (process_message message w'))
  = shell_command_path g tok (VStr s) ++ [Popen command_line true].
Proof.
  intros g w' raw d earlier Halias Hmessage Hsplit. subst w'.
  rewrite (register_shell_command_alias_run alias tok rest command_line w Halias).
  cbn [final].
  match goal with |- context [process_message message ?w1] => set (w' := w1) end.
  intros Hclean.
  assert (Htext : get_notification_model (heap w' message) !! "message"%string
                  = Some (VStr s)).
  { rewrite get_notification_model_lookup. unfold overlay_on_absent. simpl.
    by rewrite Hmessage. }
  destruct (process_message_from_alias message w' s tok rest' command_line
              Htext Hsplit)
    as (later & _ & _ & Hspawns & _).
  - simpl. apply lookup_insert_eq.
  - exact Hclean.
  - exact Hspawns.
Qed.

(** X6: aliases are told apart by their first word only: after registering
    two aliases that begin with the same word, that word resolves to the
    command line registered last, and the first is gone. *)
Theorem aliases_with_same_first_word_collide
    alias1 alias2 tok rest1 rest2 command_line1 command_line2 w :
  Str.split alias1 = tok :: rest1 →
  Str.split alias2 = tok :: rest2 →
  let o := (register_shell_command_alias alias1 command_line1;;
            register_shell_command_alias alias2 command_line2) w in
  res o = Ok tt
  ∧ SHELL_COMMAND_ALIASES_REGISTRY (globals (final o))
    = <[ tok := command_line2 ]> (SHELL_COMMAND_ALIASES_REGISTRY (globals w)).
Proof.
  intros H1 H2 o. subst o.
  rewrite (bind_ok _ _ _ _ _
             (register_shell_command_alias_run alias1 tok rest1 command_line1 w H1)).
  rewrite (register_shell_command_alias_run alias2 tok rest2 command_line2 _ H2).
  simpl. by rewrite insert_insert_eq.
Qed.

(** X7: an alias with whitespace in it, registered through the method
    [add_shell_command_alias], is stored whole and never resolves: for the
    first token of any message the alias registry answers as before. *)
Theorem added_alias_with_space_never_resolves alias command_line s tok rest w :
  Str.has_space alias = true →
  Str.split s = tok :: rest →
  let g' := globals (final (add_shell_command_alias alias command_line w)) in
  SHELL_COMMAND_ALIASES_REGISTRY g' !! alias = Some command_line
  ∧ SHELL_COMMAND_ALIASES_REGISTRY g' !! tok
    = SHELL_COMMAND_ALIASES_REGISTRY (globals w) !! tok.
Proof.
  intros Hspace Hsplit g'. subst g'. simpl. rewrite dict_update_singleton.
  split; [apply lookup_insert_eq|].
  apply lookup_insert_ne. intros Heq.
  by apply (trigger_with_space_never_matches alias s tok rest).
Qed.

(** X8: registering a handler changes one name of one registry: every
    other name, and every name of the other handler registries, resolves as
    before; the shell registries, the dict objects and the rest of the world
    stay as they were, and nothing is invoked.  So for the decorator as for
    the method. *)
Theorem handler_registration_frame (r r' : handler_registry) f name w :
  r' ≠ r ∨ name ≠ __name__ f →
  let added := method_of r f w in
  let decorated := decorator_of r f w in
  (resolve r' (globals (final added)) name = resolve r' (globals w) name
   ∧ resolve r' (globals (final decorated)) name = resolve r' (globals w) name)
  ∧ (SHELL_COMMANDS_REGISTRY (globals (final added)) = SHELL_COMMANDS_REGISTRY (globals w)
     ∧ SHELL_COMMAND_ALIASES_REGISTRY (globals (final added))
       = SHELL_COMMAND_ALIASES_REGISTRY (globals w)
     ∧ heap (final added) = heap w ∧ user (final added) = user w
     ∧ trace added = [])
  ∧ (final decorated = final added ∧ trace decorated = []).
Proof.
  intros Hother added decorated. subst added decorated.
  destruct r, r'; simpl;
    unfold register_command, register_command_parser, register_parser,
      add_command_function, add_command_parser, add_parser;
    unfold_M; simpl; rewrite ?dict_update_singleton;
    (split_and!; try done);
    try (apply lookup_insert_ne; intros Heq; destruct Hother; congruence);
    try (apply ODictSetFacts.get_set_ne; intros Heq; destruct Hother; congruence).
Qed.

(** X9: registering a global parser under a name that is already a key
    replaces the handler and keeps the name's turn in the order of
    iteration; a new name takes the last turn.  A registry without repeated
    keys stays so. *)
Theorem parser_registration_order f w :
  let P := PARSERS_REGISTRY (globals w) in
  let P' := PARSERS_REGISTRY (globals (final (add_parser f w))) in
  PARSERS_REGISTRY (globals (final (register_parser f w))) = P'
  ∧ ODict.keys P'
    = (if decide (__name__ f ∈ ODict.keys P) then ODict.keys P
       else ODict.keys P ++ [__name__ f])
  ∧ ODict.get P' (__name__ f) = Some f
  ∧ (ODictSpec.wf P → ODictSpec.wf P').
Proof.
  intros P P'. subst P P'. simpl. split_and!.
  - done.
  - apply ODictSetFacts.keys_set.
  - apply ODictSetFacts.get_set_eq.
  - apply ODictSetFacts.wf_set.
Qed.

End registration_more.

(** ** Dispatch, again *)

Section dispatch_more.
Context `{Handlers U} {OS : Subprocess U}.
Implicit Types (w : world U) (message : loc).

(** What [process_message] does up to the tokens of the message. *)
Lemma process_message_not_str message w v :
  get_notification_model (heap w message) !! "message"%string = Some v →
  (∀ s, v ≠ VStr s) →
  process_message message w
  = Outcome (Raise AttributeError) (normalized message w) [].
Proof.
  intros Htext Hv. unfold process_message.
  pure_step. rewrite (bind_ok _ _ _ _ _ (alloc_run _ _)).
  change (World _ _ _ _) with (normalized message w).
  pure_step. rewrite (proj2 (normalized_at_dispatch message w)).
  pure_step.
  by rewrite (bind_raise _ _ _ _ _ _ (str_split_AttributeError v _ Hv)).
Qed.

Lemma process_message_no_token message w s :
  get_notification_model (heap w message) !! "message"%string = Some (VStr s) →
  Str.split s = [] →
  process_message message w
  = Outcome (Raise IndexError) (normalized message w) [].
Proof.
  intros Htext Hsplit. unfold process_message.
  pure_step. rewrite (bind_ok _ _ _ _ _ (alloc_run _ _)).
  change (World _ _ _ _) with (normalized message w).
  pure_step. rewrite (proj2 (normalized_at_dispatch message w)).
  pure_step. pure_step. rewrite Hsplit.
  by rewrite (bind_raise _ _ _ _ _ _ (index0_IndexError _)).
Qed.

(** X10: called on a record whose first token is not a key of its registry,
    [process_command_function], [process_parser_command] and
    [process_shell_alias] raise [KeyError] with that token; nothing is
    invoked. *)
Theorem unregistered_token_KeyError raw w s tok rest :
  heap w raw !! "message"%string = Some (VStr s) →
  Str.split s = tok :: rest →
  (COMMAND_FUNCTIONS_REGISTRY (globals w) !! tok = None →
   process_command_function raw w = Outcome (Raise (KeyError tok)) w [])
  ∧ (COMMAND_PARSERS_REGISTRY (globals w) !! tok = None →
     process_parser_command raw w = Outcome (Raise (KeyError tok)) w [])
  ∧ (SHELL_COMMAND_ALIASES_REGISTRY (globals w) !! tok = None →
     process_shell_alias raw w = Outcome (Raise (KeyError tok)) w []).
Proof.
  intros Htext Hsplit. split_and!; intros Hnone.
  - unfold process_command_function.
    pure_step. pure_step. pure_step. rewrite Hsplit. pure_step. pure_step.
    by rewrite (bind_raise _ _ _ _ _ _ (getitem_KeyError _ _ _ Hnone)).
  - unfold process_parser_command.
    pure_step. pure_step. pure_step. rewrite Hsplit. pure_step. pure_step.
    by rewrite (bind_raise _ _ _ _ _ _ (getitem_KeyError _ _ _ Hnone)).
  - unfold process_shell_alias.
    pure_step. pure_step. pure_step. rewrite Hsplit. pure_step. pure_step.
    by rewrite (bind_raise _ _ _ _ _ _ (getitem_KeyError _ _ _ Hnone)).
Qed.

(** X11: an event whose message is not a string (a number, a boolean, a
    list, [None]) makes [process_message] raise [AttributeError]; nothing
    is invoked, and all that happened is the allocation of the record. *)
Theorem process_message_message_not_a_string message w v :
  heap w message !! "message"%string = Some v →
  (∀ s, v ≠ VStr s) →
  process_message message w
  = Outcome (Raise AttributeError) (normalized message w) [].
Proof.
  intros Hv Hnot. apply (process_message_not_str message w v); [|done].
  rewrite get_notification_model_lookup. unfold overlay_on_absent.
  by rewrite Hv.
Qed.

Lemma for_parser_in_size_changed used len i raw w :
  ODict.size (PARSERS_REGISTRY (globals w)) ≠ used →
  for_parser_in used len i raw w = Outcome (Raise RuntimeError) w [].
Proof.
  intros Hsize. destruct len; simpl; pure_step; by rewrite decide_False.
Qed.

(** X12: when a global parser returns having changed the number of entries
    of [PARSERS_REGISTRY] (by registering a parser, say), the loop of
    [process_parser] raises [RuntimeError] at its next step: no later parser
    is called, even if the one that changed the registry was the last. *)
Theorem parser_registering_during_dispatch_RuntimeError raw w k f others :
  PARSERS_REGISTRY (globals w) = Some (k, f) :: others →
  let called := apply f [ADict raw (heap w raw)] [] w in
  called.1 = Ok tt →
  ODict.size (PARSERS_REGISTRY (globals called.2))
    ≠ ODict.size (PARSERS_REGISTRY (globals w)) →
  process_parser raw w
  = Outcome (Raise RuntimeError) called.2 [Call f [ADict raw (heap w raw)] []].
Proof.
  intros HP called Hret Hsize. subst called. unfold process_parser.
  pure_step. cbv zeta. rewrite HP in Hsize |- *.
  change (ODict.size (Some (k, f) :: others)) with (S (ODict.size others))
    in Hsize |- *.
  cbn [for_parser_in].
  pure_step. rewrite HP.
  change (ODict.size (Some (k, f) :: others)) with (S (ODict.size others)).
  rewrite decide_True by done.
  change (ODict.next (Some (k, f) :: others) 0) with (Some (0, k)).
  cbv iota beta.
  erewrite bind_ogetitem by (simpl; by rewrite decide_True).
  pure_step. unfold_M. simpl. rewrite Hret. simpl.
  rewrite for_parser_in_size_changed; [done|]. exact Hsize.
Qed.


(** A call that returns hands over to what follows, which runs in the world
    the handler left. *)
Lemma bind_call_returns f args kwargs (c : unit → M U unit) w :
  (apply f args kwargs w).1 = Ok tt →
  (call f args kwargs ≫= c) w
  = let o := c tt (apply f args kwargs w).2 in
    Outcome (res o) (final o) (Call f args kwargs :: trace o).
Proof. intros Hret. unfold_M. simpl. by rewrite Hret. Qed.

(** X21: when the first global parser returns having changed the keys of
    [PARSERS_REGISTRY] but not their number, the loop goes on from the second
    place of the array of entries as the parser left it.  With keys left to
    yield it calls the handler of the entry it finds there, whatever was
    second when the loop began; with none left, the parser having been the
    only one, finding an entry is a [RuntimeError]. *)
Theorem parser_swapping_during_dispatch raw w k f others found k' f' :
  PARSERS_REGISTRY (globals w) = Some (k, f) :: others →
  let called := apply f [ADict raw (heap w raw)] [] w in
  let P' := PARSERS_REGISTRY (globals called.2) in
  called.1 = Ok tt →
  ODict.size P' = ODict.size (PARSERS_REGISTRY (globals w)) →
  ODict.next P' 1 = Some (found, k') →
  ODict.get P' k' = Some f' →
  (2 ≤ ODict.size P' →
   ∃ later,
     trace (process_parser raw w)
     = Call f [ADict raw (heap w raw)] []
         :: Call f' [ADict raw (heap called.2 raw)] [] :: later)
  ∧ (ODict.size P' = 1 →
     process_parser raw w
     = Outcome (Raise RuntimeError) called.2
               [Call f [ADict raw (heap w raw)] []]).
Proof.
  intros HP called P' Hret Hsize Hnext Hf'. subst called P'.
  unfold process_parser. pure_step. cbv zeta. rewrite HP in Hsize |- *.
  change (ODict.size (Some (k, f) :: others)) with (S (ODict.size others))
    in Hsize |- *.
  cbn [for_parser_in].
  pure_step. rewrite HP.
  change (ODict.size (Some (k, f) :: others)) with (S (ODict.size others)).
  rewrite decide_True by done.
  change (ODict.next (Some (k, f) :: others) 0) with (Some (0, k)).
  cbv iota beta.
  erewrite bind_ogetitem by (simpl; by rewrite decide_True).
  pure_step. rewrite (bind_call_returns _ _ _ _ _ Hret). cbv zeta.
  set (w1 := (apply f _ _ w).2) in *.
  split.
  - intros Hmore. destruct (ODict.size others) as [|len] eqn:Hothers; [lia|].
    cbn [for_parser_in trace].
    pure_step. rewrite decide_True by done. rewrite Hnext.
    erewrite bind_ogetitem by done.
    pure_step. unfold_M. simpl.
    destruct (apply f' _ _ w1).1; simpl; eauto.
  - intros Hone. assert (ODict.size others = 0) as -> by lia.
    cbn [for_parser_in].
    pure_step. rewrite decide_True by done. by rewrite Hnext.
Qed.

Lemma bind_popen args shell (c : unit → M U unit) w :
  ∃ later, trace ((popen args shell ≫= c) w) = Popen args shell :: later.
Proof.
  unfold_M. simpl. destruct (spawn args shell (user w)).1; simpl; eauto.
Qed.

Lemma bind_skip (c : M U unit) w : ((mret tt : M U unit);; c) w = c w.
Proof. by apply (bind_pure (mret tt : M U unit) (λ _, c) w tt). Qed.

(** X13: the record is one object shared by the paths, and each path reads
    its message anew.  When the command function returns having replaced the
    message by a text whose first token is no key of
    [COMMAND_PARSERS_REGISTRY], the command-parser path, entered because the
    original token is a key, raises [KeyError] with the new token; nothing
    after the command function is invoked. *)
Theorem rewritten_message_KeyError message w s tok rest f p s' tok' rest' :
  let raw := next_loc w in
  let d := get_notification_model (heap w message) in
  let g := globals w in
  let called := apply f (AStr <$> tok :: rest) [("raw_data"%string, ADict raw d)]
                      (normalized message w) in
  d !! "message"%string = Some (VStr s) →
  Str.split s = tok :: rest →
  COMMAND_FUNCTIONS_REGISTRY g !! tok = Some f →
  COMMAND_PARSERS_REGISTRY g !! tok = Some p →
  called.1 = Ok tt →
  globals called.2 = g →
  heap called.2 raw !! "message"%string = Some (VStr s') →
  Str.split s' = tok' :: rest' →
  COMMAND_PARSERS_REGISTRY g !! tok' = None →
  process_message message w
  = Outcome (Raise (KeyError tok')) called.2
      [Call f (AStr <$> tok :: rest) [("raw_data"%string, ADict raw d)]].
Proof.
  intros raw d g called Htext Hsplit Hf Hp Hret Hg Htext' Hsplit' Hnone.
  subst called. unfold process_message.
  pure_step. rewrite (bind_ok _ _ _ _ _ (alloc_run _ _)).
  pose proof (normalized_at_dispatch message w) as Hw.
  change (World _ _ _ _) with (normalized message w).
  fold raw d g in Hw |- *.
  pure_step. rewrite (proj2 Hw).
  pure_step. pure_step. rewrite Hsplit. pure_step. cbv zeta.
  rewrite (bind_cong_at _ _ _ _
             (command_function_step g raw d s tok rest Htext Hsplit _ Hw)).
  unfold command_function_path. rewrite Hf.
  rewrite (bind_cong_at _ _ _ _ (replay_single _ _)). simpl replay1.
  rewrite (bind_call_returns _ _ _ _ _ Hret). cbv zeta.
  set (w1 := (apply f _ _ _).2) in *.
  assert (Hout : ∀ (c : unit → M U unit),
             ((g' ← get_globals;
               when (contains (COMMAND_PARSERS_REGISTRY g') tok)
                    (process_parser_command raw)) ≫= c) w1
             = Outcome (Raise (KeyError tok')) w1 []).
  { intros c. apply bind_raise. pure_step. rewrite Hg.
    unfold contains. rewrite bool_decide_true by eauto.
    unfold when, process_parser_command.
    pure_step. pure_step. pure_step. rewrite Hsplit'. pure_step. pure_step.
    rewrite Hg.
    by rewrite (bind_raise _ _ _ _ _ _ (getitem_KeyError _ _ _ Hnone)). }
  by rewrite Hout.
Qed.

(** X14: for the same reason the shell-command path runs what the record
    holds when the path is reached, not what the event said: when the command
    function returns having replaced the message, the spawn that follows is
    of the replacement. *)
Theorem rewritten_message_is_spawned message w s tok rest f v' :
  let raw := next_loc w in
  let d := get_notification_model (heap w message) in
  let g := globals w in
  let called := apply f (AStr <$> tok :: rest) [("raw_data"%string, ADict raw d)]
                      (normalized message w) in
  d !! "message"%string = Some (VStr s) →
  Str.split s = tok :: rest →
  COMMAND_FUNCTIONS_REGISTRY g !! tok = Some f →
  COMMAND_PARSERS_REGISTRY g !! tok = None →
  tok ∈ SHELL_COMMANDS_REGISTRY g →
  called.1 = Ok tt →
  globals called.2 = g →
  heap called.2 raw !! "message"%string = Some v' →
  ∃ later,
    trace (process_message message w)
    = Call f (AStr <$> tok :: rest) [("raw_data"%string, ADict raw d)]
        :: Popen v' true :: later.
Proof.
  intros raw d g called Htext Hsplit Hf Hp Hin Hret Hg Htext'.
  subst called. unfold process_message.
  pure_step. rewrite (bind_ok _ _ _ _ _ (alloc_run _ _)).
  pose proof (normalized_at_dispatch message w) as Hw.
  change (World _ _ _ _) with (normalized message w).
  fold raw d g in Hw |- *.
  pure_step. rewrite (proj2 Hw).
  pure_step. pure_step. rewrite Hsplit. pure_step. cbv zeta.
  rewrite (bind_cong_at _ _ _ _
             (command_function_step g raw d s tok rest Htext Hsplit _ Hw)).
  unfold command_function_path. rewrite Hf.
  rewrite (bind_cong_at _ _ _ _ (replay_single _ _)). simpl replay1.
  rewrite (bind_call_returns _ _ _ _ _ Hret). cbv zeta.
  set (w1 := (apply f _ _ _).2) in *.
  rewrite (bind_cong_at _ (mret tt) _ w1).
  2: { pure_step. rewrite Hg. unfold contains.
       rewrite bool_decide_false; [done|]. rewrite Hp. by intros [? ?]. }
  rewrite bind_skip.
  rewrite (bind_cong_at _ (popen v' true) _ w1).
  2: { pure_step. rewrite Hg. rewrite bool_decide_true by done.
       unfold when, process_shell_command. pure_step. by pure_step. }
  destruct (bind_popen v' true
              (λ _, (g0 ← get_globals;
                     when (contains (SHELL_COMMAND_ALIASES_REGISTRY g0) tok)
                          (process_shell_alias raw));;
                    process_parser raw) w1) as [later Hlater].
  cbn [trace]. rewrite Hlater. eauto.
Qed.


(** *** What every run of the dispatch satisfies *)

Lemma emits_bind {A B} (P : event → Prop) (c : M U A) (k : A → M U B) :
  emits P c → (∀ a, emits P (k a)) → emits P (c ≫= k).
Proof.
  intros Hc Hk w. unfold_M. destruct (res (c w)) as [a|e]; simpl; [|apply Hc].
  apply Forall_app. split; [apply Hc|apply Hk].
Qed.

Lemma emits_silent {A} (P : event → Prop) (c : M U A) :
  (∀ w, trace (c w) = []) → emits P c.
Proof. intros Hc w. rewrite Hc. apply Forall_nil_2. Qed.

Lemma getitem_silent {V} (d : gmap string V) k w :
  trace (getitem (U := U) d k w) = [].
Proof. unfold getitem. by destruct (d !! k). Qed.

Lemma ogetitem_silent {V} (d : ODict.t V) k w :
  trace (ogetitem (U := U) d k w) = [].
Proof. unfold ogetitem. by destruct (ODict.get d k). Qed.

Lemma str_split_silent v w : trace (str_split (U := U) v w) = [].
Proof. by destruct v. Qed.

Lemma index0_silent {A} (l : list A) w : trace (index0 (U := U) l w) = [].
Proof. by destruct l. Qed.

Lemma emits_call (P : event → Prop) f args kwargs :
  P (Call f args kwargs) → emits P (call f args kwargs).
Proof. intros HP w. by apply Forall_singleton. Qed.

Lemma emits_popen (P : event → Prop) args shell :
  P (Popen args shell) → emits (U := U) (A := unit) P (popen args shell).
Proof. intros HP w. by apply Forall_singleton. Qed.

Lemma emits_when (P : event → Prop) (b : bool) (c : M U unit) :
  emits P c → emits P (when b c).
Proof. intros Hc. destruct b; [done|]. by apply emits_silent. Qed.

(** Every step of the code below is one of these. *)
Local Ltac emits_step :=
  first
    [ apply emits_bind; [|intros ?]
    | apply emits_when
    | apply emits_silent; intros ?;
      first [ reflexivity | apply getitem_silent | apply ogetitem_silent
            | apply str_split_silent | apply index0_silent ] ].

Section emitted.
Context (P : event → Prop) (raw : loc).
Context (Hcall : ∀ f tokens d,
           P (Call f (AStr <$> tokens) [("raw_data"%string, ADict raw d)]))
        (Hparse : ∀ f d, P (Call f [ADict raw d] []))
        (Hpopen : ∀ args, P (Popen args true)).

Lemma emits_process_command_function : emits P (process_command_function raw).
Proof. unfold process_command_function. repeat emits_step. by apply emits_call. Qed.

Lemma emits_process_parser_command : emits P (process_parser_command raw).
Proof. unfold process_parser_command. repeat emits_step. by apply emits_call. Qed.

Lemma emits_process_shell_command :
  emits (U := U) P (process_shell_command raw).
Proof. unfold process_shell_command. repeat emits_step. by apply emits_popen. Qed.

Lemma emits_process_shell_alias :
  emits (U := U) P (process_shell_alias raw).
Proof. unfold process_shell_alias. repeat emits_step. by apply emits_popen. Qed.

Lemma emits_for_parser_in used len i : emits P (for_parser_in used len i raw).
Proof.
  revert i. induction len as [|len IH]; intros i; simpl.
  - emits_step; [emits_step|]. case_decide; [|emits_step].
    destruct (ODict.next _ i) as [[found k]|]; emits_step.
  - emits_step; [emits_step|]. case_decide; [|emits_step].
    destruct (ODict.next _ i) as [[found k]|]; [|emits_step].
    emits_step; [emits_step|]. emits_step; [emits_step|].
    emits_step; [by apply emits_call|]. apply IH.
Qed.

Lemma emits_process_parser : emits P (process_parser raw).
Proof.
  unfold process_parser. emits_step; [emits_step|]. apply emits_for_parser_in.
Qed.

End emitted.

Lemma emits_process_message (P : event → Prop) message w :
  (∀ f tokens d,
     P (Call f (AStr <$> tokens) [("raw_data"%string, ADict (next_loc w) d)])) →
  (∀ f d, P (Call f [ADict (next_loc w) d] [])) →
  (∀ args, P (Popen args true)) →
  Forall P (trace (process_message message w)).
Proof.
  intros Hcall Hparse Hpopen. unfold process_message.
  pure_step. rewrite (bind_ok _ _ _ _ _ (alloc_run _ _)).
  generalize (World (globals w)
                (<[next_loc w:=get_notification_model (heap w message)]> (heap w))
                (S (next_loc w)) (user w)).
  intros w0. revert w0.
  change (emits P (d ← deref (next_loc w);
                   text ← getitem d "message";
                   arguments ← str_split text;
                   first_word ← index0 arguments;
                   let command := first_word in
                   let alias := first_word in
                   (g ← get_globals;
                    when (contains (COMMAND_FUNCTIONS_REGISTRY g) command)
                         (process_command_function (next_loc w)));;
                   (g ← get_globals;
                    when (contains (COMMAND_PARSERS_REGISTRY g) command)
                         (process_parser_command (next_loc w)));;
                   (g ← get_globals;
                    when (bool_decide (command ∈ SHELL_COMMANDS_REGISTRY g))
                         (process_shell_command (next_loc w)));;
                   (g ← get_globals;
                    when (contains (SHELL_COMMAND_ALIASES_REGISTRY g) alias)
                         (process_shell_alias (next_loc w)));;
                   process_parser (next_loc w))).
  do 4 (emits_step; [emits_step|]). cbv zeta.
  emits_step.
  { emits_step; [emits_step|]. by apply emits_when, emits_process_command_function. }
  emits_step.
  { emits_step; [emits_step|]. by apply emits_when, emits_process_parser_command. }
  emits_step.
  { emits_step; [emits_step|]. by apply emits_when, emits_process_shell_command. }
  emits_step.
  { emits_step; [emits_step|]. by apply emits_when, emits_process_shell_alias. }
  by apply emits_process_parser.
Qed.

(** X15: whatever the handlers do, every spawn request of a dispatch goes
    through the shell, and every dict a handler is handed is the record the
    dispatch made for this event, at its new address: never the caller's own
    dict, never a record of an earlier event. *)
Theorem process_message_hands_only_fresh_record message w :
  Forall through_shell (trace (process_message message w))
  ∧ Forall (hands_only (next_loc w)) (trace (process_message message w)).
Proof.
  split; apply emits_process_message; try done.
  - intros f tokens d. simpl. rewrite addresses_tokens.
    by apply Forall_singleton.
  - intros f d. simpl. by apply Forall_singleton.
Qed.

(** *** Counting spawns *)

Lemma spawns_at_most_bind {A B} n1 n2 (c : M U A) (k : A → M U B) :
  spawns_at_most n1 c → (∀ a, spawns_at_most n2 (k a)) →
  spawns_at_most (n1 + n2) (c ≫= k).
Proof.
  intros Hc Hk w. unfold_M. specialize (Hc w).
  destruct (res (c w)) as [a|e]; simpl; [|lia].
  rewrite spawns_app, length_app. specialize (Hk a (final (c w))). lia.
Qed.

Lemma spawns_at_most_silent {A} (c : M U A) :
  (∀ w, trace (c w) = []) → spawns_at_most 0 c.
Proof. intros Hc w. by rewrite Hc. Qed.

Lemma spawns_at_most_weaken {A} n n' (c : M U A) :
  spawns_at_most n c → n ≤ n' → spawns_at_most n' c.
Proof. intros Hc Hn w. specialize (Hc w). lia. Qed.

Lemma spawns_at_most_call f args kwargs :
  spawns_at_most 0 (call f args kwargs).
Proof. by intros w. Qed.

Lemma spawns_at_most_popen args shell :
  spawns_at_most (U := U) (A := unit) 1 (popen args shell).
Proof. by intros w. Qed.

Lemma spawns_at_most_when n (b : bool) (c : M U unit) :
  spawns_at_most n c → spawns_at_most n (when b c).
Proof.
  intros Hc. destruct b; [done|].
  apply (spawns_at_most_weaken 0); [by apply spawns_at_most_silent|lia].
Qed.

Lemma spawns_at_most_after_silent {A B} n (c : M U A) (k : A → M U B) :
  (∀ w, trace (c w) = []) → (∀ a, spawns_at_most n (k a)) →
  spawns_at_most n (c ≫= k).
Proof.
  intros Hc Hk. apply (spawns_at_most_bind 0 n); [|done].
  by apply spawns_at_most_silent.
Qed.

Local Ltac silent :=
  intros ?;
  first [ reflexivity | apply getitem_silent | apply ogetitem_silent
        | apply str_split_silent | apply index0_silent ].

Local Ltac count_step :=
  apply spawns_at_most_after_silent; [silent|intros ?].

Lemma spawns_at_most_process_command_function raw :
  spawns_at_most 0 (process_command_function raw).
Proof.
  unfold process_command_function. do 7 count_step.
  apply spawns_at_most_call.
Qed.

Lemma spawns_at_most_process_parser_command raw :
  spawns_at_most 0 (process_parser_command raw).
Proof.
  unfold process_parser_command. do 7 count_step.
  apply spawns_at_most_call.
Qed.

Lemma spawns_at_most_process_shell_command raw :
  spawns_at_most (U := U) 1 (process_shell_command raw).
Proof.
  unfold process_shell_command. do 2 count_step. apply spawns_at_most_popen.
Qed.

Lemma spawns_at_most_process_shell_alias raw :
  spawns_at_most (U := U) 1 (process_shell_alias raw).
Proof.
  unfold process_shell_alias. do 6 count_step. apply spawns_at_most_popen.
Qed.

Lemma spawns_at_most_process_parser raw :
  spawns_at_most 0 (process_parser raw).
Proof. intros w. by rewrite process_parser_spawns. Qed.

(** X16: whatever the handlers do, one dispatch makes at most two spawn
    requests: at most one for the shell command and one for the alias. *)
Theorem process_message_spawns_at_most_two message w :
  length (spawns (trace (process_message message w))) ≤ 2.
Proof.
  unfold process_message.
  pure_step. rewrite (bind_ok _ _ _ _ _ (alloc_run _ _)).
  generalize (World (globals w)
                (<[next_loc w:=get_notification_model (heap w message)]> (heap w))
                (S (next_loc w)) (user w)).
  intros w0. revert w0.
  match goal with
  | |- ∀ w0, length (spawns (trace (?c w0))) ≤ 2 =>
      change (spawns_at_most 2 c)
  end.
  do 4 count_step. cbv zeta.
  eapply (spawns_at_most_weaken (0 + (0 + (1 + (1 + 0))))); [|lia].
  apply spawns_at_most_bind.
  { count_step. by apply spawns_at_most_when, spawns_at_most_process_command_function. }
  intros _. apply spawns_at_most_bind.
  { count_step. by apply spawns_at_most_when, spawns_at_most_process_parser_command. }
  intros _. apply spawns_at_most_bind.
  { count_step. by apply spawns_at_most_when, spawns_at_most_process_shell_command. }
  intros _. apply spawns_at_most_bind.
  { count_step. by apply spawns_at_most_when, spawns_at_most_process_shell_alias. }
  intros _. apply spawns_at_most_process_parser.
Qed.


Lemma handlers_for_registered g tok f :
  f ∈ handlers_for g tok → registered g f.
Proof.
  unfold handlers_for, registered.
  intros [Hf|[Hf|Hf]%elem_of_app]%elem_of_app.
  - left. exists tok. destruct (COMMAND_FUNCTIONS_REGISTRY g !! tok); simpl in Hf.
    + by apply list_elem_of_singleton in Hf as ->.
    + by apply elem_of_nil in Hf.
  - right. left. exists tok.
    destruct (COMMAND_PARSERS_REGISTRY g !! tok); simpl in Hf.
    + by apply list_elem_of_singleton in Hf as ->.
    + by apply elem_of_nil in Hf.
  - right. right. apply list_elem_of_fmap in Hf as ([k f'] & -> & Hf).
    unfold ODictSpec.items in Hf.
    apply list_elem_of_omap in Hf as (k' & _ & Hk').
    exists k'. destruct (ODict.get (PARSERS_REGISTRY g) k'); simpl in Hk'; [|done].
    by injection Hk' as _ ->.
Qed.

(** With well-behaved handlers the only invocation that can raise is a
    spawn request, which is then the last. *)
Lemma replay_well_behaved raw evs w :
  Forall (well_behaved raw) (omap callee evs) →
  res (replay evs w) = Ok tt
  ∨ ∃ before args shell e,
      res (replay evs w) = Raise e
      ∧ trace (replay evs w) = before ++ [Popen args shell]
      ∧ (spawn args shell (user (final (replay before w)))).1 = Raise e.
Proof.
  revert w. induction evs as [|ev evs IH]; intros w Hevs; [by left|].
  destruct ev as [f args kwargs|args shell]; csimpl in Hevs.
  - apply Forall_cons in Hevs as [(Hret & _ & _) Hevs].
    pose proof (Hret args kwargs w) as Hcall.
    cbn [replay replay1].
    rewrite (bind_returned (call f args kwargs) _ w tt Hcall). cbn [res trace].
    destruct (IH (final (call f args kwargs w)) Hevs)
      as [Hok|(before & a & sh & e & Hres & Htrace & Hspawn)]; [by left|].
    right. exists (Call f args kwargs :: before), a, sh, e.
    split_and!; [done|by rewrite Htrace|].
    cbn [replay replay1].
    by rewrite (bind_returned (call f args kwargs) _ w tt Hcall).
  - cbn [replay replay1].
    destruct (spawn args shell (user w)).1 as [[]|e] eqn:Hspawn.
    + rewrite (bind_returned (popen args shell) _ w tt Hspawn). cbn [res trace].
      destruct (IH (final (popen args shell w)) Hevs)
        as [Hok|(before & a & sh & e & Hres & Htrace & Hspawn')]; [by left|].
      right. exists (Popen args shell :: before), a, sh, e.
      split_and!; [done|by rewrite Htrace|].
      cbn [replay replay1].
      by rewrite (bind_returned (popen args shell) _ w tt Hspawn).
    + right. exists [], args, shell, e.
      by rewrite (bind_raised (popen args shell) _ w e Hspawn).
Qed.

(** X17: with registered handlers that are all well behaved, a dispatch can
    fail in three ways only.  Two come before anything is invoked:
    [IndexError] when the message is a string without a token,
    [AttributeError] when it is not a string.  The third is
    [subprocess.Popen] raising on a spawn request, which is then the last
    invocation of the dispatch.  Otherwise the dispatch returns. *)
Theorem process_message_fails_on_message_or_spawn message w :
  (∀ f, registered (globals w) f → well_behaved (next_loc w) f) →
  let d := get_notification_model (heap w message) in
  let o := process_message message w in
  (res o = Ok tt
   ∧ ∃ s, d !! "message"%string = Some (VStr s) ∧ Str.blank s = false)
  ∨ (res o = Raise IndexError ∧ trace o = []
     ∧ ∃ s, d !! "message"%string = Some (VStr s) ∧ Str.blank s = true)
  ∨ (res o = Raise AttributeError ∧ trace o = []
     ∧ ∀ s, d !! "message"%string ≠ Some (VStr s))
  ∨ (∃ before args e,
       res o = Raise e
       ∧ trace o = before ++ [Popen args true]
       ∧ (spawn args true
            (user (final (replay before (normalized message w))))).1 = Raise e).
Proof.
  intros Hwb d o. subst o.
  assert (Hsome : is_Some (d !! "message"%string)).
  { unfold d. rewrite get_notification_model_lookup. unfold overlay_on_absent.
    destruct (heap w message !! "message"%string); [eauto|].
    rewrite decide_True; [eauto|].
    apply (bool_decide_unpack _). vm_compute. exact I. }
  destruct Hsome as [v Hv].
  assert (Hcases : (∃ s, v = VStr s) ∨ ∀ s, v ≠ VStr s)
    by (destruct v; eauto).
  destruct Hcases as [[s ->]|Hnot].
  - destruct (Str.split s) as [|tok rest] eqn:Hsplit.
    + right. left.
      rewrite (process_message_no_token message w s Hv Hsplit).
      split_and!; [done..|]. exists s. split; [done|].
      by apply StrFacts.split_nil.
    + assert (Hhandlers :
                Forall (well_behaved (next_loc w))
                  (omap callee (dispatch_sequence (globals w) tok (tok :: rest)
                                  (VStr s) (next_loc w) d))).
      { rewrite callees_dispatch_sequence. apply Forall_forall. intros f Hf.
        by apply Hwb, (handlers_for_registered _ tok). }
      pose proof (emits_process_message through_shell message w
                    ltac:(done) ltac:(done) ltac:(done)) as Hshell.
      rewrite (process_message_replay message w s tok rest Hv Hsplit) in Hshell |- *;
        [|by apply guarded_well_behaved..].
      fold d in Hshell |- *.
      destruct (replay_well_behaved _ _ (normalized message w) Hhandlers)
        as [Hok|(before & args & shell & e & Hres & Htrace & Hspawn)].
      * left. split; [done|]. exists s. split; [done|].
        destruct (Str.blank s) eqn:Hblank; [|done].
        apply StrFacts.split_nil in Hblank. congruence.
      * right. right. right. rewrite Htrace in Hshell.
        apply Forall_app in Hshell as [_ Hshell].
        apply Forall_inv in Hshell. change (shell = true) in Hshell.
        subst shell.
        by exists before, args, e.
  - right. right. left.
    rewrite (process_message_not_str message w v Hv Hnot).
    split_and!; [done..|]. intros s Hs. apply (Hnot s). congruence.
Qed.

(** X20: when [subprocess.Popen] raises on a request that the dispatch
    makes, in the state that the invocations made before it have left,
    [process_message] ends with that exception: the request is the last
    invocation of the dispatch, so that no path after it is taken, and the
    registries and the dict objects are as the earlier invocations left
    them. *)
Theorem spawn_failure_aborts_dispatch message w before args shell after e :
  let o := process_message message w in
  let earlier := replay before (normalized message w) in
  trace o = before ++ Popen args shell :: after →
  (spawn args shell (user (final earlier))).1 = Raise e →
  res o = Raise e
  ∧ after = []
  ∧ (globals (final o) = globals (final earlier)
     ∧ heap (final o) = heap (final earlier))
  ∧ res earlier = Ok tt
  ∧ trace earlier = before.
Proof.
  intros o earlier Htrace Hraise. subst earlier.
  destruct (process_message_retraceable message w) as (Ht & Hw & He).
  fold o in Ht, Hw, He.
  destruct (raising_invocation_is_last (trace o) (normalized message w)
              before (Popen args shell) after e Ht Htrace Hraise)
    as (Hafter & Hres & Hbefore & Hres' & Hfinal).
  split_and!; [by apply He|done| | |done..].
  - by rewrite <- Hw, Hfinal.
  - by rewrite <- Hw, Hfinal.
Qed.

End dispatch_more.

(** ** The transport callbacks *)

Section transport_facts.
Context `{Handlers U} {OS : Subprocess U}.
Implicit Types (w : world U) (self : client).

(** X18: [_on_open] reads [self.pushover_websocket_login_string] and then
    [self.send_login]; on a client on which either was never set it raises
    [AttributeError] and sends nothing.  [__init__] sets neither, so this is
    what [_on_open] does on every client as constructed. *)
Theorem on_open_raises_AttributeError url websocketapp w :
  _on_open (__init__ url) websocketapp w = Outcome (Raise AttributeError) w []
  ∧ ∀ self,
      pushover_websocket_login_string self = None ∨ send_login self = None →
      _on_open self websocketapp w = Outcome (Raise AttributeError) w [].
Proof.
  split; [done|]. intros self Hunset. unfold _on_open.
  destruct (pushover_websocket_login_string self) as [login|]; [|done].
  destruct Hunset as [?| ->]; done.
Qed.

(** X19: [_on_message] reads [self.pushover_websocket_server_commands]; on
    a client on which it was never set, as [__init__] leaves it, every
    inbound message raises [AttributeError] and nothing is invoked.  Were it
    set, a message that is no key of it would be dropped, and a message that
    is a key would call the function stored for it, without arguments. *)
Theorem on_message_raises_AttributeError url websocketapp message w :
  _on_message (__init__ url) websocketapp message w
  = Outcome (Raise AttributeError) w []
  ∧ ∀ self,
      match pushover_websocket_server_commands self with
      | None =>
          _on_message self websocketapp message w
          = Outcome (Raise AttributeError) w []
      | Some commands =>
          match commands !! message with
          | None => _on_message self websocketapp message w = Outcome (Ok tt) w []
          | Some f =>
              _on_message self websocketapp message w
              = Outcome (apply f [] [] w).1 (apply f [] [] w).2 [Call f [] []]
          end
      end.
Proof.
  split; [done|]. intros self. unfold _on_message.
  destruct (pushover_websocket_server_commands self) as [commands|]; [|done].
  simpl getattr. rewrite (bind_pure _ _ w commands eq_refl). unfold contains.
  destruct (commands !! message) as [f|] eqn:Hf.
  - rewrite bool_decide_true by eauto.
    unfold_M. simpl. rewrite Hf. simpl.
    by destruct (apply f [] [] w) as [[[]|e] w'].
  - rewrite bool_decide_false by (by intros [? ?]). done.
Qed.

End transport_facts.

(** ** The further properties on the sample application *)

Section sample_application_more.
#[local] Existing Instance sample_handlers.
#[local] Existing Instance sample_subprocess.

Local Ltac evaluate := vm_compute; reflexivity.

Lemma registered_command_line_is_spawned_witness :
  spawns (trace (process_message 0
                   (final (register_shell_command "uptime -p" uptime_world))))
  = [Popen (VStr "uptime -p") true].
Proof.
  destruct (registered_command_line_is_spawned
              "uptime -p" "uptime" ["-p"%string] 0 uptime_world)
    as (more & Hspawns & Hmore).
  - evaluate.
  - evaluate.
  - assert (Hearlier :
              command_function_path (globals uptime_world) "uptime"
                ["uptime"; "-p"]%string (next_loc uptime_world)
                (get_notification_model (heap uptime_world 0))
                ++ command_parser_path (globals uptime_world) "uptime"
                     (next_loc uptime_world)
                     (get_notification_model (heap uptime_world 0))
              = []) by evaluate.
    rewrite Hearlier. exact I.
  - assert (Halias : shell_alias_path (globals uptime_world) "uptime" = [])
      by evaluate.
    rewrite Halias in Hmore. apply prefix_nil_inv in Hmore. subst more.
    exact Hspawns.
Defined.

Lemma shell_registration_blank_name_witness :
  res (register_shell_command "  " uptime_world) = Raise IndexError
  ∧ res (register_shell_command_alias "" (VStr "ls") uptime_world)
    = Raise IndexError.
Proof.
  split.
  - destruct (shell_registration_blank_name "  " VNone uptime_world) as [-> _];
      [evaluate|done].
  - destruct (shell_registration_blank_name "" (VStr "ls") uptime_world) as [_ ->];
      [evaluate|done].
Defined.

Lemma registered_alias_is_spawned_witness :
  spawns (trace (process_message 0
                   (final (register_shell_command_alias "uptime please"
                             (VList ["uptime"; "--pretty"]%string) uptime_world))))
  = [Popen (VList ["uptime"; "--pretty"]%string) true].
Proof.
  etrans; [apply (registered_alias_is_spawned
                    "uptime please" "uptime" ["please"%string]
                    (VList ["uptime"; "--pretty"]%string)
                    "uptime -p" ["-p"%string] 0 uptime_world)|].
  - evaluate.
  - evaluate.
  - evaluate.
  - assert (Hearlier :
              command_function_path (globals uptime_world) "uptime"
                ["uptime"; "-p"]%string (next_loc uptime_world)
                (get_notification_model (heap uptime_world 0))
                ++ command_parser_path (globals uptime_world) "uptime"
                     (next_loc uptime_world)
                     (get_notification_model (heap uptime_world 0))
                ++ shell_command_path (globals uptime_world) "uptime"
                     (VStr "uptime -p")
              = []) by evaluate.
    rewrite Hearlier. exact I.
  - evaluate.
Defined.

Lemma aliases_with_same_first_word_collide_witness :
  SHELL_COMMAND_ALIASES_REGISTRY
    (globals (final ((register_shell_command_alias "deploy prod" (VStr "make prod");;
                      register_shell_command_alias "deploy staging" (VStr "make staging"))
                       uptime_world)))
  !! "deploy"%string
  = Some (VStr "make staging").
Proof.
  destruct (aliases_with_same_first_word_collide
              "deploy prod" "deploy staging" "deploy"
              ["prod"%string] ["staging"%string]
              (VStr "make prod") (VStr "make staging") uptime_world)
    as [_ ->]; [evaluate..|].
  apply lookup_insert_eq.
Defined.

Lemma added_alias_with_space_never_resolves_witness :
  SHELL_COMMAND_ALIASES_REGISTRY
    (globals (final (add_shell_command_alias "deploy prod" (VStr "make prod")
                       uptime_world)))
  !! "deploy"%string
  = None.
Proof.
  destruct (added_alias_with_space_never_resolves
              "deploy prod" (VStr "make prod") "deploy prod" "deploy"
              ["prod"%string] uptime_world) as [_ ->]; evaluate.
Defined.

Lemma handler_registration_frame_witness :
  resolve CommandParsers
    (globals (final (add_command_function (Def "audit" 5) reboot_world))) "reboot"
  = Some (Def "reboot" 2).
Proof.
  destruct (handler_registration_frame CommandFunctions CommandParsers
              (Def "audit" 5) "reboot" reboot_world) as [[Hframe _] _].
  - by left.
  - etrans; [exact Hframe|]. evaluate.
Defined.

Lemma unregistered_token_KeyError_witness :
  process_parser_command 0 uptime_world
  = Outcome (Raise (KeyError "uptime")) uptime_world [].
Proof.
  destruct (unregistered_token_KeyError 0 uptime_world
              "uptime -p" "uptime" ["-p"%string]) as (_ & Hparser & _);
    [evaluate..|].
  apply Hparser. evaluate.
Defined.

Lemma process_message_message_not_a_string_witness :
  process_message 0 number_world
  = Outcome (Raise AttributeError) (normalized 0 number_world) [].
Proof.
  apply (process_message_message_not_a_string 0 number_world (VInt 42)).
  - evaluate.
  - done.
Defined.

Lemma parser_registering_during_dispatch_RuntimeError_witness :
  res (process_parser (H := registering_handlers) 1 growing_world)
  = Raise RuntimeError.
Proof.
  rewrite (parser_registering_during_dispatch_RuntimeError
             (H := registering_handlers) 1 growing_world
             "grow" (Def "grow" 21) []).
  - done.
  - evaluate.
  - evaluate.
  - vm_compute. lia.
Defined.

Lemma parser_swapping_during_dispatch_witness :
  (∃ later,
     trace (process_parser (H := swapping_handlers) 1 swapping_world)
     = Call (Def "first" 31) [ADict 1 ∅] []
         :: Call (Def "third" 3) [ADict 1 ∅] [] :: later)
  ∧ res (process_parser (H := swapping_handlers) 1 renewing_world)
    = Raise RuntimeError.
Proof.
  split.
  - destruct (parser_swapping_during_dispatch (H := swapping_handlers)
                1 swapping_world "first" (Def "first" 31)
                [Some ("second"%string, Def "second" 3)]
                2 "third" (Def "third" 3)) as [Hmore _];
      [evaluate..|].
    destruct Hmore as [later Hlater]; [vm_compute; lia|].
    exists later. etrans; [exact Hlater|]. evaluate.
  - destruct (parser_swapping_during_dispatch (H := swapping_handlers)
                1 renewing_world "only" (Def "only" 32) []
                1 "only" (Def "only" 32)) as [_ Hone];
      [evaluate..|].
    rewrite Hone; [done|evaluate].
Defined.

Lemma rewritten_message_KeyError_witness :
  res (process_message 0 rewriting_world) = Raise (KeyError "scribbled").
Proof.
  rewrite (rewritten_message_KeyError 0 rewriting_world
             "ping" "ping" [] (Def "ping" 7) (Def "ping" 2)
             "scribbled" "scribbled" []).
  - done.
  - evaluate.
  - evaluate.
  - evaluate.
  - evaluate.
  - evaluate.
  - evaluate.
  - evaluate.
  - evaluate.
  - evaluate.
Defined.

Lemma rewritten_message_is_spawned_witness :
  ∃ later,
    trace (process_message 0 scribbling_world)
    = Call (Def "ping" 7) [AStr "ping"]
           [("raw_data"%string,
             ADict 1 (get_notification_model (heap scribbling_world 0)))]
        :: Popen (VStr "scribbled") true :: later.
Proof.
  apply (rewritten_message_is_spawned 0 scribbling_world
           "ping" "ping" [] (Def "ping" 7) (VStr "scribbled")).
  - evaluate.
  - evaluate.
  - evaluate.
  - evaluate.
  - apply (bool_decide_unpack _). evaluate.
  - evaluate.
  - evaluate.
  - evaluate.
Defined.

Lemma process_message_fails_on_message_or_spawn_witness :
  res (process_message 0 one_command_world) = Ok tt.
Proof.
  destruct (process_message_fails_on_message_or_spawn 0 one_command_world)
    as [[Hres _]|[[Hres _]|[[Hres _]|(before & args & e & Hres & _)]]].
  - intros f [[k Hk]|[[k Hk]|[k Hk]]].
    + assert (Hf : f = Def "reboot" 1).
      { vm_compute in Hk. revert Hk.
        change (({[ "reboot"%string := Def "reboot" 1 ]} : gmap string pyfunc) !! k
                = Some f → f = Def "reboot" 1).
        intros [_ ->]%lookup_singleton_Some. done. }
      subst f. apply sample_handlers_well_behaved; lia.
    + by vm_compute in Hk.
    + by vm_compute in Hk.
  - exact Hres.
  - exfalso. revert Hres. by vm_compute.
  - exfalso. revert Hres. by vm_compute.
  - exfalso. revert Hres. by vm_compute.
Defined.

Lemma spawn_failure_aborts_dispatch_witness :
  let o := process_message 0 nul_world in
  SHELL_COMMAND_ALIASES_REGISTRY (globals nul_world) !! "ping"%string
    = Some (VStr "ping -c 1 localhost")
  ∧ res o = Raise ValueError
  ∧ trace o = [Popen (VStr nul_message) true].
Proof.
  intros o.
  assert (Htrace : trace o = [] ++ Popen (VStr nul_message) true :: [])
    by (vm_compute; reflexivity).
  destruct (spawn_failure_aborts_dispatch 0 nul_world
              [] (VStr nul_message) true [] ValueError)
    as (Hres & _).
  - exact Htrace.
  - vm_compute. reflexivity.
  - split_and!; [vm_compute; reflexivity|exact Hres|exact Htrace].
Defined.

End sample_application_more.
